(** * Nonlinear solvers: Newton-Raphson, bisection and their composition

    A shallow embedding of [nonlinear_solvers/solvers.py].

    The first part takes scalars to be exact rationals ([Q]): this is the
    arithmetic the Python code performs on [fractions.Fraction] arguments,
    and the arithmetic it performs on floats wherever no rounding, overflow
    or NaN occurs.  What is proved there about control flow (which calls are
    made, which exception comes out, how often the guard is tested) does not
    depend on that choice.  The module [Scalar] gives the same functions
    over the arithmetic of their arguments, with binary64 floats as an
    instance; what depends on the arithmetic is stated and proved there, and
    the places where floats depart from exact arithmetic are exhibited.
    The iteration budgets are Python integers ([Z]).

    The caller-supplied callables [f] and [df] are deterministic and may
    raise.  Every solver returns an outcome together with the trace of what
    it did: each call of [f], each call of [df], and each evaluation of a
    [while] guard.  The [while] loops are written with fuel; the budget test
    of the source bounds the number of iterations, and the top-level functions
    are shown never to run out of fuel. *)

From Stdlib Require Import QArith Qabs Qminmax Qpower ZArith List String Lia Lqa
  Bool.
From Stdlib Require Import Relations.Relation_Operators.
From Stdlib Require Import Floats.
Import ListNotations.

Local Open Scope Q_scope.

(** ** Exceptions, outcomes and traces *)

(** The exceptions that can travel through the solvers.  [ConvergenceError]
    is the class declared in the module; [ValueError] and [ZeroDivisionError]
    are the Python built-ins; [OtherError] stands for any other exception a
    callable may raise. *)
Inductive exn : Type :=
| ConvergenceError (msg : string)
| ValueError (msg : string)
| ZeroDivisionError
| OtherError (name : string).

Inductive outcome (A : Type) : Type :=
| Returns (a : A)
| Raises (e : exn)
| OutOfFuel.

Arguments Returns {A} a.
Arguments Raises {A} e.
Arguments OutOfFuel {A}.

Inductive event : Type :=
| Call_f (x : Q)
| Call_df (x : Q)
| Loop_test (holds : bool).

Definition trace : Type := list event.

(** A callable [function(x: float) -> float]: it returns a scalar or raises. *)
Definition callable : Type := Q -> exn + Q.

(** A computation yields an outcome and the trace of the events it emitted. *)
Definition M (A : Type) : Type := (outcome A * trace)%type.

Definition ret {A : Type} (a : A) : M A := (Returns a, []).

Definition raise {A : Type} (e : exn) : M A := (Raises e, []).

Definition out_of_fuel {A : Type} : M A := (OutOfFuel, []).

Definition bind {A B : Type} (m : M A) (k : A -> M B) : M B :=
  match m with
  | (Returns a, t) => let (o, t') := k a in (o, t ++ t')
  | (Raises e, t) => (Raises e, t)
  | (OutOfFuel, t) => (OutOfFuel, t)
  end.

Definition emit (ev : event) : M unit := (Returns tt, [ev]).

Definition call (tag : Q -> event) (g : callable) (x : Q) : M Q :=
  (match g x with inr v => Returns v | inl e => Raises e end, [tag x]).

(** [try: m  except ConvergenceError: handler]. *)
Definition try_except_ConvergenceError {A : Type} (m handler : M A) : M A :=
  match m with
  | (Raises (ConvergenceError _), t) => let (o, t') := handler in (o, t ++ t')
  | other => other
  end.

Declare Scope solver_scope.
Delimit Scope solver_scope with solver.
Notation "x <- m ;; k" := (bind m (fun x => k))
  (at level 61, m at next level, right associativity) : solver_scope.
Notation "m ;;; k" := (bind m (fun _ => k))
  (at level 61, right associativity) : solver_scope.
Local Open Scope solver_scope.

(** ** Python operators on scalars *)

(** [a >= b] *)
Definition Qge_bool (a b : Q) : bool := Qle_bool b a.

(** [a < b] *)
Definition Qlt_bool (a b : Q) : bool := negb (Qle_bool b a).

(** [a / b]: true division raises on a zero divisor. *)
Definition py_div (a b : Q) : M Q :=
  if Qeq_bool b 0 then raise ZeroDivisionError else ret (a / b).

(** The two messages, as the source's string literals spell them (a
    backslash at the end of the line keeps the next line's indentation). *)
Definition newton_msg : string :=
  "Newton-Raphson iteration exceeds                                     the number of iterations allowed".

Definition bisection_msg : string :=
  "Bisection iteration exceeds                                     the number of iterations allowed.".

Definition bracket_msg : string :=
  "f(x_0) and f(x_1) do not differ in sign.".

(** ** newton_raphson *)

Section Newton.

Variables (f df : callable) (eps : Q) (max_its : Z).

(** The [while] loop of [newton_raphson], from the state [(x_0, count)]. *)
Fixpoint newton_while (fuel : nat) (x_0 : Q) (count : Z) : M Q :=
  match fuel with
  | O => out_of_fuel
  | S fuel' =>
      fx <- call Call_f f x_0 ;;
      let test := Qge_bool (Qabs fx) eps in
      emit (Loop_test test) ;;;
      if test then
        fx' <- call Call_f f x_0 ;;
        dfx <- call Call_df df x_0 ;;
        q <- py_div fx' dfx ;;
        let x_0 := x_0 - q in
        let count := (count + 1)%Z in
        if (count >? max_its)%Z then raise (ConvergenceError newton_msg)
        else newton_while fuel' x_0 count
      else ret x_0
  end.

(** The Newton iterate sequence [x_{k+1} = x_k - f(x_k)/df(x_k)], as the
    specification words it; undefined where an evaluation or the division
    faults. *)
Definition newton_update (x : Q) : option Q :=
  match f x, df x with
  | inr a, inr b => if Qeq_bool b 0 then None else Some (x - a / b)
  | _, _ => None
  end.

Fixpoint newton_iterate (k : nat) (x : Q) : option Q :=
  match k with
  | O => Some x
  | S k' =>
      match newton_update x with
      | Some x' => newton_iterate k' x'
      | None => None
      end
  end.

(** [abs(f(x)) < eps] and [abs(f(x)) >= eps], for a point where [f]
    returns. *)
Definition converged (x : Q) : Prop :=
  exists v, f x = inr v /\ Qabs v < eps.

Definition not_converged (x : Q) : Prop :=
  exists v, f x = inr v /\ eps <= Qabs v.

End Newton.

Definition newton_raphson (f df : callable) (x_0 eps : Q) (max_its : Z) : M Q :=
  newton_while f df eps max_its (S (Z.to_nat max_its)) x_0 0%Z.

(** ** bisection *)

(** The local variables the [while] loop of [bisection] works on. *)
Record loop_state : Type := mk_state {
  st_x_0 : Q;
  st_x_1 : Q;
  st_x_temp : Q;
  st_f_test : Q;
  st_count : Z
}.

Section Bisection.

Variables (f : callable) (eps : Q) (max_its : Z).

(** One pass through the body of the [while] loop. *)
Definition bisection_body (st : loop_state) : M loop_state :=
  let x_0 := if Qge_bool (st_f_test st) 0 then st_x_temp st else st_x_0 st in
  let x_1 := if Qge_bool (st_f_test st) 0 then st_x_1 st else st_x_temp st in
  let x_temp := (x_0 + x_1) / 2 in
  f_test <- call Call_f f x_temp ;;
  let count := (st_count st + 1)%Z in
  if (count >? max_its)%Z then raise (ConvergenceError bisection_msg)
  else ret (mk_state x_0 x_1 x_temp f_test count).

Fixpoint bisection_while (fuel : nat) (st : loop_state) : M Q :=
  match fuel with
  | O => out_of_fuel
  | S fuel' =>
      let test := Qge_bool (Qabs (st_f_test st)) eps in
      emit (Loop_test test) ;;;
      if test then
        st' <- bisection_body st ;;
        bisection_while fuel' st'
      else ret (st_x_temp st)
  end.

(** The state on entry to the loop: the bracket after the orientation
    swap, its midpoint and the value of [f] there. *)
Definition bisection_init (x_0 x_1 f0 : Q) : M loop_state :=
  let '(x_0, x_1) := if Qlt_bool f0 0 then (x_1, x_0) else (x_0, x_1) in
  let x_temp := (x_0 + x_1) / 2 in
  f_test <- call Call_f f x_temp ;;
  ret (mk_state x_0 x_1 x_temp f_test 0).

(** One iteration of the loop that runs to its end: the guard holds at
    [st] and the body leaves the state [st']. *)
Definition bisection_step (st st' : loop_state) : Prop :=
  Qge_bool (Qabs (st_f_test st)) eps = true /\
  fst (bisection_body st) = Returns st'.

(** The states the loop can be in at the start of an iteration. *)
Definition bisection_reaches : loop_state -> loop_state -> Prop :=
  clos_refl_trans_n1 loop_state bisection_step.

End Bisection.

Definition bisection (f : callable) (x_0 x_1 eps : Q) (max_its : Z) : M Q :=
  f0 <- call Call_f f x_0 ;;
  f1 <- call Call_f f x_1 ;;
  if Qge_bool (f0 * f1) 0 then raise (ValueError bracket_msg)
  else
    st <- bisection_init f x_0 x_1 f0 ;;
    bisection_while f eps max_its (S (Z.to_nat max_its)) st.

(** ** solve *)

Definition solve (f df : callable) (x_0 x_1 eps : Q) (max_its_n max_its_b : Z)
  : M Q :=
  try_except_ConvergenceError
    (x <- newton_raphson f df x_0 eps max_its_n ;; ret x)
    (x <- bisection f x_0 x_1 eps max_its_b ;; ret x).

(** The default arguments [eps=1.0e-5] and [max_its=20]. *)
Definition default_eps : Q := 1 # 100000.

Definition default_max_its : Z := 20.

(** The number of times a [while] guard was evaluated along a trace. *)
Definition is_loop_test (ev : event) : bool :=
  match ev with Loop_test _ => true | _ => false end.

Definition guard_evaluations (t : trace) : nat :=
  List.length (List.filter is_loop_test t).

(** The number of calls of [df] along a trace. *)
Definition is_call_df (ev : event) : bool :=
  match ev with Call_df _ => true | _ => false end.

Definition df_calls (t : trace) : nat :=
  List.length (List.filter is_call_df t).

(** The events of one full pass through the Newton-Raphson loop at [x]: the
    guard, then the update. *)
Definition update_trace (x : Q) : trace :=
  [Call_f x; Loop_test true; Call_f x; Call_df x].

(** A callable that never raises [ConvergenceError] itself. *)
Definition never_raises_ConvergenceError (g : callable) : Prop :=
  forall x msg, g x <> inl (ConvergenceError msg).

Section NewtonSpec.

Variables (f df : callable) (eps : Q).

(** [y] is the first element of the Newton iterate sequence from [x] that
    meets the tolerance, and it has index [k]. *)
Definition first_converged (k : nat) (x y : Q) : Prop :=
  newton_iterate f df k x = Some y /\
  converged f eps y /\
  forall j, (j < k)%nat ->
    exists xj, newton_iterate f df j x = Some xj /\ not_converged f eps xj.


(** The same, by recursion along the run. *)
Fixpoint runs_over (n : nat) (x : Q) : Prop :=
  not_converged f eps x /\
  match newton_update f df x with
  | None => False
  | Some x' => match n with O => True | S n' => runs_over n' x' end
  end.

End NewtonSpec.

Section BisectionSpec.

Variable f : callable.

(** [a] and [b] are of strictly opposite sign. *)
Definition opposite_sign (a b : Q) : Prop :=
  (a < 0 /\ 0 < b) \/ (b < 0 /\ 0 < a).

(** The sign convention of the source's comment:
    [f(x_0) >= 0] and [f(x_1) < 0]. *)
Definition oriented (st : loop_state) : Prop :=
  (exists a, f (st_x_0 st) = inr a /\ 0 <= a) /\
  (exists b, f (st_x_1 st) = inr b /\ b < 0).

(** [x_temp] is the midpoint of the bracket and [f_test] is [f] there. *)
Definition midpoint_tested (st : loop_state) : Prop :=
  st_x_temp st = (st_x_0 st + st_x_1 st) / 2 /\
  f (st_x_temp st) = inr (st_f_test st).

(** The bracket of [st], as a closed interval, lies in [[lo, hi]]. *)
Definition within (lo hi : Q) (st : loop_state) : Prop :=
  lo <= Qmin (st_x_0 st) (st_x_1 st) /\
  Qmax (st_x_0 st) (st_x_1 st) <= hi.

(** The bracket of [st'] is contained in the bracket of [st]. *)
Definition nested (st st' : loop_state) : Prop :=
  within (Qmin (st_x_0 st) (st_x_1 st)) (Qmax (st_x_0 st) (st_x_1 st)) st'.

(** Each endpoint of [st'] is an endpoint of [st] or the midpoint of
    [st]. *)
Definition replaced_by_midpoint (st st' : loop_state) : Prop :=
  (st_x_0 st' = st_x_temp st /\ st_x_1 st' = st_x_1 st) \/
  (st_x_0 st' = st_x_0 st /\ st_x_1 st' = st_x_temp st).

End BisectionSpec.


(** ** Measures used by the further properties *)

(** The number of calls of [f] along a trace. *)
Definition is_call_f (ev : event) : bool :=
  match ev with Call_f _ => true | _ => false end.

Definition f_calls (t : trace) : nat :=
  List.length (List.filter is_call_f t).

(** A callable that returns at every point. *)
Definition total_callable (g : callable) : Prop :=
  forall x, exists v, g x = inr v.

(** [L] bounds the slope of [g] between any two points where it returns. *)
Definition lipschitz (g : callable) (L : Q) : Prop :=
  forall x y u v,
    g x = inr u -> g y = inr v -> Qabs (u - v) <= L * Qabs (x - y).

(** The width of the current bracket. *)
Definition width (st : loop_state) : Q := Qabs (st_x_0 st - st_x_1 st).

(** What [newton_raphson] can raise: what [f] or [df] raised, the division
    fault at a point where [df] is zero, or its own convergence failure. *)
Definition newton_may_raise (f df : callable) (e : exn) : Prop :=
  (exists y, f y = inl e) \/
  (exists y, df y = inl e) \/
  (e = ZeroDivisionError /\ exists y d, df y = inr d /\ d == 0) \/
  e = ConvergenceError newton_msg.

(** What [bisection] can raise: what [f] raised, the invalid-bracket error,
    or its own convergence failure. *)
Definition bisection_may_raise (f : callable) (e : exn) : Prop :=
  (exists y, f y = inl e) \/
  e = ValueError bracket_msg \/
  e = ConvergenceError bisection_msg.

(** * The solvers over the arithmetic of their arguments

    The source is written for [float] arguments.  The same three functions
    are given here with the arithmetic taken as a parameter, so that they
    can be run on binary64 floats, where a product can underflow, a sum can
    overflow and a comparison with NaN is false, as well as on exact
    rationals. *)

Module Scalar.

(** The operations the source applies to its scalars. *)
Record arith (R : Type) : Type := mk_arith {
  a_zero : R;
  a_two : R;
  a_add : R -> R -> R;
  a_sub : R -> R -> R;
  a_mul : R -> R -> R;
  a_quo : R -> R -> R;
  a_abs : R -> R;
  a_ge : R -> R -> bool;
  a_lt : R -> R -> bool;
  a_is_zero : R -> bool
}.

Arguments a_zero {R} _.
Arguments a_two {R} _.
Arguments a_add {R} _ _ _.
Arguments a_sub {R} _ _ _.
Arguments a_mul {R} _ _ _.
Arguments a_quo {R} _ _ _.
Arguments a_abs {R} _ _.
Arguments a_ge {R} _ _ _.
Arguments a_lt {R} _ _ _.
Arguments a_is_zero {R} _ _.

Inductive event (R : Type) : Type :=
| Call_f (x : R)
| Call_df (x : R)
| Loop_test (holds : bool).

Arguments Call_f {R} x.
Arguments Call_df {R} x.
Arguments Loop_test {R} holds.

Definition callable (R : Type) : Type := R -> exn + R.

Definition M (R A : Type) : Type := (outcome A * list (event R))%type.

Definition ret {R A : Type} (a : A) : M R A := (Returns a, []).

Definition raise {R A : Type} (e : exn) : M R A := (Raises e, []).

Definition out_of_fuel {R A : Type} : M R A := (OutOfFuel, []).

Definition bind {R A B : Type} (m : M R A) (k : A -> M R B) : M R B :=
  match m with
  | (Returns a, t) => let (o, t') := k a in (o, t ++ t')
  | (Raises e, t) => (Raises e, t)
  | (OutOfFuel, t) => (OutOfFuel, t)
  end.

Definition emit {R : Type} (ev : event R) : M R unit := (Returns tt, [ev]).

Definition call {R : Type} (tag : R -> event R) (g : callable R) (x : R)
  : M R R :=
  (match g x with inr v => Returns v | inl e => Raises e end, [tag x]).

Definition try_except_ConvergenceError {R A : Type} (m handler : M R A)
  : M R A :=
  match m with
  | (Raises (ConvergenceError _), t) => let (o, t') := handler in (o, t ++ t')
  | other => other
  end.

Declare Scope scalar_scope.
Delimit Scope scalar_scope with scalar.
Notation "x <- m ;; k" := (bind m (fun x => k))
  (at level 61, m at next level, right associativity) : scalar_scope.
Notation "m ;;; k" := (bind m (fun _ => k))
  (at level 61, right associativity) : scalar_scope.
Local Open Scope scalar_scope.

Record loop_state (R : Type) : Type := mk_state {
  st_x_0 : R;
  st_x_1 : R;
  st_x_temp : R;
  st_f_test : R;
  st_count : Z
}.

Arguments mk_state {R} _ _ _ _ _.
Arguments st_x_0 {R} _.
Arguments st_x_1 {R} _.
Arguments st_x_temp {R} _.
Arguments st_f_test {R} _.
Arguments st_count {R} _.

Section Solvers.

Context {R : Type} (A : arith R).

(** [a / b]: true division raises on a zero divisor. *)
Definition py_div (a b : R) : M R R :=
  if a_is_zero A b then raise ZeroDivisionError else ret (a_quo A a b).

Section Newton.

Variables (f df : callable R) (eps : R) (max_its : Z).

Fixpoint newton_while (fuel : nat) (x_0 : R) (count : Z) : M R R :=
  match fuel with
  | O => out_of_fuel
  | S fuel' =>
      fx <- call Call_f f x_0 ;;
      let test := a_ge A (a_abs A fx) eps in
      emit (Loop_test test) ;;;
      if test then
        fx' <- call Call_f f x_0 ;;
        dfx <- call Call_df df x_0 ;;
        q <- py_div fx' dfx ;;
        let x_0 := a_sub A x_0 q in
        let count := (count + 1)%Z in
        if (count >? max_its)%Z then raise (ConvergenceError newton_msg)
        else newton_while fuel' x_0 count
      else ret x_0
  end.

(** The Newton iterate sequence, as the arithmetic computes it. *)
Definition newton_update (x : R) : option R :=
  match f x, df x with
  | inr a, inr b =>
      if a_is_zero A b then None else Some (a_sub A x (a_quo A a b))
  | _, _ => None
  end.

Fixpoint newton_iterate (k : nat) (x : R) : option R :=
  match k with
  | O => Some x
  | S k' =>
      match newton_update x with
      | Some x' => newton_iterate k' x'
      | None => None
      end
  end.

(** The loop guard [abs(f(x)) >= eps], at a point where [f] returns. *)
Definition guard_holds (x : R) : Prop :=
  exists v, f x = inr v /\ a_ge A (a_abs A v) eps = true.

Definition guard_fails (x : R) : Prop :=
  exists v, f x = inr v /\ a_ge A (a_abs A v) eps = false.

(** [y] is the first element of the Newton iterate sequence from [x] at
    which the guard fails, and it has index [k]. *)
Definition first_unguarded (k : nat) (x y : R) : Prop :=
  newton_iterate k x = Some y /\
  guard_fails y /\
  forall j, (j < k)%nat ->
    exists xj, newton_iterate j x = Some xj /\ guard_holds xj.

End Newton.

Definition newton_raphson (f df : callable R) (x_0 eps : R) (max_its : Z)
  : M R R :=
  newton_while f df eps max_its (S (Z.to_nat max_its)) x_0 0%Z.

Section Bisection.

Variables (f : callable R) (eps : R) (max_its : Z).

Definition bisection_body (st : loop_state R) : M R (loop_state R) :=
  let x_0 :=
    if a_ge A (st_f_test st) (a_zero A) then st_x_temp st else st_x_0 st in
  let x_1 :=
    if a_ge A (st_f_test st) (a_zero A) then st_x_1 st else st_x_temp st in
  let x_temp := a_quo A (a_add A x_0 x_1) (a_two A) in
  f_test <- call Call_f f x_temp ;;
  let count := (st_count st + 1)%Z in
  if (count >? max_its)%Z then raise (ConvergenceError bisection_msg)
  else ret (mk_state x_0 x_1 x_temp f_test count).

Fixpoint bisection_while (fuel : nat) (st : loop_state R) : M R R :=
  match fuel with
  | O => out_of_fuel
  | S fuel' =>
      let test := a_ge A (a_abs A (st_f_test st)) eps in
      emit (Loop_test test) ;;;
      if test then
        st' <- bisection_body st ;;
        bisection_while fuel' st'
      else ret (st_x_temp st)
  end.

Definition bisection_init (x_0 x_1 f0 : R) : M R (loop_state R) :=
  let '(x_0, x_1) :=
    if a_lt A f0 (a_zero A) then (x_1, x_0) else (x_0, x_1) in
  let x_temp := a_quo A (a_add A x_0 x_1) (a_two A) in
  f_test <- call Call_f f x_temp ;;
  ret (mk_state x_0 x_1 x_temp f_test 0).

(** One iteration of the loop that runs to its end. *)
Definition bisection_step (st st' : loop_state R) : Prop :=
  a_ge A (a_abs A (st_f_test st)) eps = true /\
  fst (bisection_body st) = Returns st'.

Definition bisection_reaches : loop_state R -> loop_state R -> Prop :=
  clos_refl_trans_n1 (loop_state R) bisection_step.

(** The sign convention of the source's comment. *)
Definition oriented (st : loop_state R) : Prop :=
  (exists a, f (st_x_0 st) = inr a /\ a_ge A a (a_zero A) = true) /\
  (exists b, f (st_x_1 st) = inr b /\ a_lt A b (a_zero A) = true).

Definition midpoint_tested (st : loop_state R) : Prop :=
  st_x_temp st = a_quo A (a_add A (st_x_0 st) (st_x_1 st)) (a_two A) /\
  f (st_x_temp st) = inr (st_f_test st).

End Bisection.

Definition bisection (f : callable R) (x_0 x_1 eps : R) (max_its : Z)
  : M R R :=
  f0 <- call Call_f f x_0 ;;
  f1 <- call Call_f f x_1 ;;
  if a_ge A (a_mul A f0 f1) (a_zero A) then raise (ValueError bracket_msg)
  else
    st <- bisection_init f x_0 x_1 f0 ;;
    bisection_while f eps max_its (S (Z.to_nat max_its)) st.

Definition solve (f df : callable R) (x_0 x_1 eps : R)
  (max_its_n max_its_b : Z) : M R R :=
  try_except_ConvergenceError
    (x <- newton_raphson f df x_0 eps max_its_n ;; ret x)
    (x <- bisection f x_0 x_1 eps max_its_b ;; ret x).

(** Each end of [st'] is an end of [st] or the midpoint of [st]. *)
Definition replaced_by_midpoint (st st' : loop_state R) : Prop :=
  (st_x_0 st' = st_x_temp st /\ st_x_1 st' = st_x_1 st) \/
  (st_x_0 st' = st_x_0 st /\ st_x_1 st' = st_x_temp st).

(** [a] and [b] are of strictly opposite sign. *)
Definition opposite_sign (a b : R) : Prop :=
  (a_lt A a (a_zero A) = true /\ a_lt A (a_zero A) b = true) \/
  (a_lt A b (a_zero A) = true /\ a_lt A (a_zero A) a = true).

(** What the sign invariant of the bisection loop asks of the order: a
    positive value passes [>= 0] and is not negative, and a value that the
    guard lets into the loop and that fails [>= 0] is negative. *)
Record sign_laws : Prop := {
  positive_ge_zero :
    forall b, a_lt A (a_zero A) b = true -> a_ge A b (a_zero A) = true;
  positive_not_negative :
    forall a, a_lt A (a_zero A) a = true -> a_lt A a (a_zero A) = false;
  guarded_negative :
    forall v eps,
      a_ge A (a_abs A v) eps = true -> a_ge A v (a_zero A) = false ->
      a_lt A v (a_zero A) = true
}.

(** The events of one full pass through the Newton-Raphson loop at [x]. *)
Definition pass_trace (x : R) : list (event R) :=
  [Call_f x; Loop_test true; Call_f x; Call_df x].

(** The number of guard evaluations along a trace. *)
Definition guard_evaluations (t : list (event R)) : nat :=
  List.length
    (List.filter (fun ev => match ev with Loop_test _ => true | _ => false end)
       t).

End Solvers.

End Scalar.

(** Python's [float]: IEEE 754 binary64, with [>=] and [<] false on NaN and
    [/] raising on a divisor equal to zero of either sign. *)
Definition binary64 : Scalar.arith float :=
  Scalar.mk_arith float
    0%float 2%float
    PrimFloat.add PrimFloat.sub PrimFloat.mul PrimFloat.div
    PrimFloat.abs
    (fun a b => PrimFloat.leb b a)
    PrimFloat.ltb
    (fun b => PrimFloat.eqb b 0%float).

(** Exact rationals, the arithmetic of the definitions above. *)
Definition rational : Scalar.arith Q :=
  Scalar.mk_arith Q
    0 2 Qplus Qminus Qmult Qdiv Qabs Qge_bool Qlt_bool
    (fun b => Qeq_bool b 0).

(** A loop state of the rational instance, as a loop state of the
    definitions above. *)
Definition plain_state (st : Scalar.loop_state Q) : loop_state :=
  mk_state (Scalar.st_x_0 st) (Scalar.st_x_1 st) (Scalar.st_x_temp st)
    (Scalar.st_f_test st) (Scalar.st_count st).

Definition outcome_map {A B : Type} (g : A -> B) (o : outcome A) : outcome B :=
  match o with
  | Returns a => Returns (g a)
  | Raises e => Raises e
  | OutOfFuel => OutOfFuel
  end.

(** [min(a, b)] and [max(a, b)] on floats, as Python computes them. *)
Definition float_min (a b : float) : float :=
  if PrimFloat.ltb b a then b else a.

Definition float_max (a b : float) : float :=
  if PrimFloat.ltb a b then b else a.

(** The bracket of [st'] lies in the bracket of [st], on floats. *)
Definition float_nested (st st' : Scalar.loop_state float) : Prop :=
  PrimFloat.leb
    (float_min (Scalar.st_x_0 st) (Scalar.st_x_1 st))
    (float_min (Scalar.st_x_0 st') (Scalar.st_x_1 st')) = true /\
  PrimFloat.leb
    (float_max (Scalar.st_x_0 st') (Scalar.st_x_1 st'))
    (float_max (Scalar.st_x_0 st) (Scalar.st_x_1 st)) = true.

(** The statement that a value returned by [newton_raphson] always meets
    the tolerance, on floats. *)
Definition newton_result_meets_tolerance : Prop :=
  forall (f df : Scalar.callable float) (x_0 eps : float) (max_its : Z)
         (x : float) (t : list (Scalar.event float)),
    Scalar.newton_raphson binary64 f df x_0 eps max_its = (Returns x, t) ->
    exists v, f x = inr v /\ PrimFloat.ltb (PrimFloat.abs v) eps = true.

(** The statement that every iteration of [bisection] leaves a bracket
    contained in the one it started from, on floats. *)
Definition bisection_brackets_nested : Prop :=
  forall (f : Scalar.callable float) (x_0 x_1 eps : float) (max_its : Z)
         (a b : float) (st0 st st' : Scalar.loop_state float),
    f x_0 = inr a -> f x_1 = inr b -> Scalar.opposite_sign binary64 a b ->
    fst (Scalar.bisection_init binary64 f x_0 x_1 a) = Returns st0 ->
    Scalar.bisection_reaches binary64 f eps max_its st0 st ->
    Scalar.bisection_step binary64 f eps max_its st st' ->
    float_nested st st'.


(** * Properties *)

(** ** Scalar comparisons *)

Lemma Qge_bool_true (a b : Q) : Qge_bool a b = true <-> b <= a.
Proof. unfold Qge_bool. apply Qle_bool_iff. Qed.

Lemma Qge_bool_false (a b : Q) : Qge_bool a b = false <-> a < b.
Proof.
  unfold Qge_bool. split; intros H.
  - apply Qnot_le_lt. intros Hle. apply Qle_bool_iff in Hle. congruence.
  - destruct (Qle_bool b a) eqn:E; [|reflexivity].
    apply Qle_bool_iff in E. exfalso. apply (Qlt_not_le _ _ H E).
Qed.

Lemma Qlt_bool_true (a b : Q) : Qlt_bool a b = true <-> a < b.
Proof.
  unfold Qlt_bool. rewrite negb_true_iff. apply (Qge_bool_false a b).
Qed.

Lemma Qlt_bool_false (a b : Q) : Qlt_bool a b = false <-> b <= a.
Proof.
  unfold Qlt_bool. rewrite negb_false_iff. apply (Qge_bool_true a b).
Qed.

Lemma guard_evaluations_app (t t' : trace) :
  guard_evaluations (t ++ t') = (guard_evaluations t + guard_evaluations t')%nat.
Proof.
  unfold guard_evaluations. rewrite filter_app, length_app. reflexivity.
Qed.

Lemma f_calls_app (t t' : trace) :
  f_calls (t ++ t') = (f_calls t + f_calls t')%nat.
Proof. unfold f_calls. rewrite filter_app, length_app. reflexivity. Qed.

Lemma df_calls_app (t t' : trace) :
  df_calls (t ++ t') = (df_calls t + df_calls t')%nat.
Proof. unfold df_calls. rewrite filter_app, length_app. reflexivity. Qed.

(** ** The Newton-Raphson loop, one iteration at a time *)

Section NewtonFacts.

Variables (f df : callable) (eps : Q) (max_its : Z).

Local Abbreviation loop := (newton_while f df eps max_its).

Lemma newton_while_f_raises fuel x count e :
  f x = inl e ->
  loop (S fuel) x count = (Raises e, [Call_f x]).
Proof.
  intros Hf. simpl. unfold call. rewrite Hf. reflexivity.
Qed.

Lemma newton_while_converged fuel x count v :
  f x = inr v -> Qabs v < eps ->
  loop (S fuel) x count = (Returns x, [Call_f x; Loop_test false]).
Proof.
  intros Hf Hv. simpl. unfold call. rewrite Hf. simpl.
  apply Qge_bool_false in Hv. rewrite Hv. reflexivity.
Qed.

Lemma newton_while_df_raises fuel x count v e :
  f x = inr v -> eps <= Qabs v -> df x = inl e ->
  loop (S fuel) x count = (Raises e, update_trace x).
Proof.
  intros Hf Hv Hdf. simpl. unfold call. rewrite Hf. simpl.
  apply Qge_bool_true in Hv. rewrite Hv. simpl. rewrite Hdf. reflexivity.
Qed.

Lemma newton_while_zero_division fuel x count v d :
  f x = inr v -> eps <= Qabs v -> df x = inr d -> d == 0 ->
  loop (S fuel) x count = (Raises ZeroDivisionError, update_trace x).
Proof.
  intros Hf Hv Hdf Hd. simpl. unfold call. rewrite Hf. simpl.
  apply Qge_bool_true in Hv. rewrite Hv. simpl. rewrite Hdf. simpl.
  unfold py_div. apply Qeq_bool_iff in Hd. rewrite Hd. reflexivity.
Qed.

Lemma newton_while_exceeds fuel x count v d :
  f x = inr v -> eps <= Qabs v -> df x = inr d -> ~ d == 0 ->
  (count + 1 > max_its)%Z ->
  loop (S fuel) x count =
    (Raises (ConvergenceError newton_msg), update_trace x).
Proof.
  intros Hf Hv Hdf Hd Hc. simpl. unfold call. rewrite Hf. simpl.
  apply Qge_bool_true in Hv. rewrite Hv. simpl. rewrite Hdf. simpl.
  unfold py_div.
  destruct (Qeq_bool d 0) eqn:E; [apply Qeq_bool_iff in E; contradiction|].
  simpl. apply Z.gtb_gt in Hc. rewrite Hc. reflexivity.
Qed.

Lemma newton_while_continues fuel x count v d :
  f x = inr v -> eps <= Qabs v -> df x = inr d -> ~ d == 0 ->
  (count + 1 <= max_its)%Z ->
  loop (S fuel) x count =
    (fst (loop fuel (x - v / d) (count + 1)%Z),
     update_trace x ++ snd (loop fuel (x - v / d) (count + 1)%Z)).
Proof.
  intros Hf Hv Hdf Hd Hc. simpl. unfold call. rewrite Hf. simpl.
  apply Qge_bool_true in Hv. rewrite Hv. simpl. rewrite Hdf. simpl.
  unfold py_div.
  destruct (Qeq_bool d 0) eqn:E; [apply Qeq_bool_iff in E; contradiction|].
  simpl.
  destruct (count + 1 >? max_its)%Z eqn:G; [apply Z.gtb_gt in G; lia|].
  destruct (newton_while f df eps max_its fuel (x - v / d) (count + 1))
    as [o t]. reflexivity.
Qed.

Lemma newton_update_some x v d :
  f x = inr v -> df x = inr d -> ~ d == 0 ->
  newton_update f df x = Some (x - v / d).
Proof.
  intros Hf Hdf Hd. unfold newton_update. rewrite Hf, Hdf.
  destruct (Qeq_bool d 0) eqn:E; [apply Qeq_bool_iff in E; contradiction|].
  reflexivity.
Qed.

Lemma newton_update_inv x x' :
  newton_update f df x = Some x' ->
  exists v d, f x = inr v /\ df x = inr d /\ ~ d == 0 /\ x' = x - v / d.
Proof.
  unfold newton_update. intros H.
  destruct (f x) as [e|v]; [discriminate|].
  destruct (df x) as [e|d]; [discriminate|].
  destruct (Qeq_bool d 0) eqn:E; [discriminate|].
  injection H as <-. exists v, d. repeat split.
  intros Hd. apply Qeq_bool_iff in Hd. congruence.
Qed.

End NewtonFacts.

Section NewtonRuns.

Variables (f df : callable) (eps : Q) (max_its : Z).

Local Abbreviation loop := (newton_while f df eps max_its).

(** Splits a pass of the loop at [x] into the six ways it can go. *)
Ltac newton_cases fuel x count :=
  let e := fresh "e" in
  let v := fresh "v" in
  let d := fresh "d" in
  let Hf := fresh "Hf" in
  let Hdf := fresh "Hdf" in
  let Hv := fresh "Hv" in
  let Hd := fresh "Hd" in
  let Hc := fresh "Hc" in
  destruct (f x) as [e|v] eqn:Hf;
  [ rewrite (newton_while_f_raises f df eps max_its fuel x count e Hf)
  | destruct (Qlt_le_dec (Qabs v) eps) as [Hv|Hv];
    [ rewrite (newton_while_converged f df eps max_its fuel x count v Hf Hv)
    | destruct (df x) as [e|d] eqn:Hdf;
      [ rewrite (newton_while_df_raises f df eps max_its fuel x count v e
                   Hf Hv Hdf)
      | destruct (Qeq_dec d 0) as [Hd|Hd];
        [ rewrite (newton_while_zero_division f df eps max_its fuel x count
                     v d Hf Hv Hdf Hd)
        | destruct (Z_gt_le_dec (count + 1) max_its) as [Hc|Hc];
          [ rewrite (newton_while_exceeds f df eps max_its fuel x count v d
                       Hf Hv Hdf Hd Hc)
          | rewrite (newton_while_continues f df eps max_its fuel x count
                       v d Hf Hv Hdf Hd Hc) ] ] ] ] ].

(** The budget test bounds the loop: with more fuel than the budget has
    left, the loop ends by itself. *)
Lemma newton_while_total fuel :
  forall x count,
    (Z.to_nat (max_its - count) < fuel)%nat ->
    fst (loop fuel x count) <> OutOfFuel.
Proof.
  induction fuel as [|fuel IH]; intros x count Hfuel; [lia|].
  newton_cases fuel x count; simpl; try discriminate.
  apply IH. lia.
Qed.

Lemma newton_while_returns fuel :
  forall x count y t,
    loop fuel x count = (Returns y, t) ->
    exists k, first_converged f df eps k x y /\
              guard_evaluations t = S k /\ df_calls t = k /\
              (k = O \/ (count + Z.of_nat k <= max_its)%Z).
Proof.
  induction fuel as [|fuel IH]; intros x count y t; [discriminate|].
  newton_cases fuel x count; intros H; try discriminate.
  - injection H as <- <-. exists O. repeat split; auto.
    + exists v. auto.
    + intros j Hj. lia.
  - destruct (loop fuel (x - v / d) (count + 1)%Z) as [o t'] eqn:E.
    cbn [fst snd] in H. injection H as -> <-.
    destruct (IH _ _ _ _ E) as (k & (Hk & Hy & Hbefore) & Hg & Hdfc & Hcount).
    exists (S k). repeat split.
    + simpl. rewrite (newton_update_some f df x v d Hf Hdf Hd). exact Hk.
    + exact Hy.
    + intros [|j] Hj.
      * exists x. split; [reflexivity|]. exists v. auto.
      * simpl. rewrite (newton_update_some f df x v d Hf Hdf Hd).
        apply Hbefore. lia.
    + change (guard_evaluations (update_trace x ++ t') = S (S k)).
      rewrite guard_evaluations_app, Hg. reflexivity.
    + unfold df_calls in *. simpl. rewrite Hdfc. reflexivity.
    + right. destruct Hcount as [->|Hcount]; lia.
Qed.


Lemma runs_over_raises fuel :
  forall x count,
    (Z.to_nat (max_its - count) < fuel)%nat ->
    runs_over f df eps (Z.to_nat (max_its - count)) x ->
    exists t,
      loop fuel x count = (Raises (ConvergenceError newton_msg), t) /\
      guard_evaluations t = S (Z.to_nat (max_its - count)).
Proof.
  induction fuel as [|fuel IH]; intros x count Hfuel Hrun; [lia|].
  assert (Hnc : not_converged f eps x).
  { destruct (Z.to_nat (max_its - count)); apply Hrun. }
  destruct Hnc as (v' & Hfv & Hv').
  destruct (newton_update f df x) as [x'|] eqn:U;
    [|destruct (Z.to_nat (max_its - count)); simpl in Hrun; rewrite U in Hrun;
      destruct Hrun as (_ & []) ].
  destruct (newton_update_inv f df x x' U) as (v0 & d0 & Hf0 & Hdf0 & Hd0 & ->).
  assert (v' = v0) by congruence. subst v'.
  destruct (Z_gt_le_dec (count + 1) max_its) as [Hc|Hc].
  - rewrite (newton_while_exceeds f df eps max_its fuel x count v0 d0
               Hf0 Hv' Hdf0 Hd0 Hc).
    eexists. split; [reflexivity|].
    replace (Z.to_nat (max_its - count)) with O by lia. reflexivity.
  - rewrite (newton_while_continues f df eps max_its fuel x count v0 d0
               Hf0 Hv' Hdf0 Hd0 Hc).
    assert (En : Z.to_nat (max_its - count)
                 = S (Z.to_nat (max_its - (count + 1)))) by lia.
    rewrite En in Hrun. simpl in Hrun. rewrite U in Hrun.
    destruct Hrun as (_ & Hrun).
    destruct (IH (x - v0 / d0) (count + 1)%Z ltac:(lia) Hrun)
      as (t & Et & Hg).
    rewrite Et. cbn [fst snd]. eexists. split; [reflexivity|].
    rewrite guard_evaluations_app, Hg, En. reflexivity.
Qed.



(** The converse of [newton_while_returns]: an iterate that meets the
    tolerance first, within the budget, is what the loop returns. *)
Lemma newton_while_complete k :
  forall fuel x count y,
    first_converged f df eps k x y ->
    (k = O \/ (count + Z.of_nat k <= max_its)%Z) ->
    (k < fuel)%nat ->
    exists t, loop fuel x count = (Returns y, t) /\
              guard_evaluations t = S k.
Proof.
  induction k as [|k IH]; intros fuel x count y (Hk & Hy & Hbefore) Hb Hfuel;
    (destruct fuel as [|fuel]; [lia|]).
  - simpl in Hk. injection Hk as ->. destruct Hy as (v & Hv & Hlt).
    rewrite (newton_while_converged f df eps max_its fuel y count v Hv Hlt).
    eexists. split; reflexivity.
  - destruct (Hbefore O ltac:(lia)) as (x0 & E0 & (v & Hv & Hge)).
    simpl in E0. injection E0 as <-.
    simpl in Hk.
    destruct (newton_update f df x) as [x'|] eqn:U; [|discriminate].
    destruct (newton_update_inv f df x x' U) as (v0 & d & Hf0 & Hdf & Hd & ->).
    assert (v0 = v) by congruence. subst v0.
    assert (Hc : (count + 1 <= max_its)%Z) by lia.
    rewrite (newton_while_continues f df eps max_its fuel x count v d
               Hv Hge Hdf Hd Hc).
    destruct (IH fuel (x - v / d) (count + 1)%Z y) as (t & Et & Hg).
    + split; [exact Hk|]. split; [exact Hy|].
      intros j Hj. specialize (Hbefore (S j) ltac:(lia)).
      simpl in Hbefore. rewrite U in Hbefore. exact Hbefore.
    + right. lia.
    + lia.
    + rewrite Et. cbn [fst snd]. eexists. split; [reflexivity|].
      rewrite guard_evaluations_app, Hg. reflexivity.
Qed.

(** Every exception of the loop has one of four origins. *)
Lemma newton_while_may_raise fuel :
  forall x count e,
    fst (loop fuel x count) = Raises e -> newton_may_raise f df e.
Proof.
  unfold newton_may_raise.
  induction fuel as [|fuel IH]; intros x count e; [discriminate|].
  newton_cases fuel x count; cbn [fst]; intros H; try discriminate.
  - injection H as <-. left. eauto.
  - injection H as <-. right. left. eauto.
  - injection H as <-. right. right. left. split; [reflexivity|]. eauto.
  - injection H as <-. right. right. right. reflexivity.
  - apply (IH _ _ _ H).
Qed.

(** The cost of a run: a pass of the loop evaluates the guard once, [f] at
    most twice and [df] at most once. *)
Lemma newton_while_cost fuel :
  forall x count,
    (guard_evaluations (snd (loop fuel x count)) <= fuel)%nat /\
    (f_calls (snd (loop fuel x count))
       <= 2 * guard_evaluations (snd (loop fuel x count)) + 1)%nat /\
    (df_calls (snd (loop fuel x count))
       <= guard_evaluations (snd (loop fuel x count)))%nat /\
    (forall y, fst (loop fuel x count) = Returns y ->
       f_calls (snd (loop fuel x count))
         = (2 * df_calls (snd (loop fuel x count)) + 1)%nat /\
       guard_evaluations (snd (loop fuel x count))
         = S (df_calls (snd (loop fuel x count)))).
Proof.
  induction fuel as [|fuel IH]; intros x count.
  { unfold guard_evaluations, f_calls, df_calls; simpl.
    repeat split; intros; try lia; discriminate. }
  newton_cases fuel x count; cbn [fst snd];
    try (unfold guard_evaluations, f_calls, df_calls; simpl;
         repeat split; intros; solve [lia | discriminate]).
  destruct (IH (x - v / d) (count + 1)%Z) as (Hg & Hfc & Hdc & Hret).
  unfold guard_evaluations, f_calls, df_calls in *.
  rewrite !filter_app, !length_app. simpl.
  repeat split; try lia.
  - destruct (Hret y H); lia.
  - destruct (Hret y H); lia.
Qed.

End NewtonRuns.

(** ** The bisection loop *)

Lemma opposite_sign_product (a b : Q) : opposite_sign a b <-> a * b < 0.
Proof.
  unfold opposite_sign. split.
  - intros [[Ha Hb]|[Hb Ha]]; nra.
  - intros H. destruct (Qlt_le_dec a 0) as [Ha|Ha].
    + left. split; [exact Ha|].
      destruct (Qlt_le_dec 0 b) as [Hb|Hb]; [exact Hb|]. nra.
    + right. destruct (Qlt_le_dec b 0) as [Hb|Hb]; [|nra].
      split; [exact Hb|].
      destruct (Qeq_dec a 0) as [E|E]; [rewrite E in H; lra|].
      destruct (Qle_lt_or_eq _ _ Ha) as [L|L]; [exact L|].
      exfalso. apply E. symmetry. exact L.
Qed.

Ltac qminmax :=
  repeat match goal with
  | |- context [Qmin ?a ?b] =>
      let H := fresh in
      destruct (Q.min_spec a b) as [[? H]|[? H]]; rewrite H in *; clear H
  | |- context [Qmax ?a ?b] =>
      let H := fresh in
      destruct (Q.max_spec a b) as [[? H]|[? H]]; rewrite H in *; clear H
  end;
  unfold Qdiv in *; change (/ 2) with (1 # 2) in *; try lra.

Lemma midpoint_between (a b : Q) :
  Qmin a b <= (a + b) / 2 /\ (a + b) / 2 <= Qmax a b.
Proof. split; qminmax. Qed.

Section BisectionFacts.

Variables (f : callable) (eps : Q) (max_its : Z).

Local Abbreviation body := (bisection_body f max_its).
Local Abbreviation loop := (bisection_while f eps max_its).
Local Abbreviation step := (bisection_step f eps max_its).

(** The body either completes, or raises: what [f] raised at the new
    midpoint, or the convergence failure. *)
Lemma bisection_body_outcome st :
  snd (body st) <> [] /\
  match fst (body st) with
  | Returns st' =>
      replaced_by_midpoint st st' /\
      (0 <= st_f_test st ->
         st_x_0 st' = st_x_temp st /\ st_x_1 st' = st_x_1 st) /\
      (st_f_test st < 0 ->
         st_x_1 st' = st_x_temp st /\ st_x_0 st' = st_x_0 st) /\
      midpoint_tested f st' /\
      st_count st' = (st_count st + 1)%Z /\
      (st_count st' <= max_its)%Z
  | Raises e =>
      (exists y, f y = inl e) \/
      (e = ConvergenceError bisection_msg /\ (st_count st + 1 > max_its)%Z)
  | OutOfFuel => False
  end.
Proof.
  unfold bisection_body, bind, call.
  set (x_0 := if Qge_bool (st_f_test st) 0 then st_x_temp st else st_x_0 st).
  set (x_1 := if Qge_bool (st_f_test st) 0 then st_x_1 st else st_x_temp st).
  destruct (f ((x_0 + x_1) / 2)) as [e|v] eqn:Hf.
  - simpl. split; [discriminate|]. left. eauto.
  - destruct (st_count st + 1 >? max_its)%Z eqn:Hc; simpl.
    + split; [discriminate|]. right. split; [reflexivity|].
      apply Z.gtb_gt. exact Hc.
    + split; [discriminate|].
      assert (Hle : (st_count st + 1 <= max_its)%Z).
      { destruct (Z_gt_le_dec (st_count st + 1) max_its) as [G|G];
          [apply Z.gtb_gt in G; congruence|exact G]. }
      unfold replaced_by_midpoint, midpoint_tested. simpl.
      subst x_0 x_1.
      destruct (Qge_bool (st_f_test st) 0) eqn:Ht.
      * apply Qge_bool_true in Ht.
        repeat split; auto; try (intros; exfalso; lra).
      * apply Qge_bool_false in Ht.
        repeat split; auto; try (intros; exfalso; lra).
Qed.

(** A completed iteration keeps the sign convention and shrinks the
    bracket. *)
Lemma bisection_step_invariant st st' :
  oriented f st -> midpoint_tested f st -> step st st' ->
  oriented f st' /\ midpoint_tested f st' /\ nested st st' /\
  replaced_by_midpoint st st' /\
  st_count st' = (st_count st + 1)%Z.
Proof.
  intros ((a & Ha & Hapos) & (b & Hb & Hbneg)) (Hmid & Htest) (_ & Hbody).
  pose proof (bisection_body_outcome st) as (_ & Hout).
  rewrite Hbody in Hout.
  destruct Hout as (Hrep & Hpos & Hneg & Hmt & Hcount & _).
  repeat split; try assumption; try apply Hmt.
  - destruct (Qlt_le_dec (st_f_test st) 0) as [Hs|Hs].
    + destruct (Hneg Hs) as (_ & ->). eauto.
    + destruct (Hpos Hs) as (-> & _). eauto.
  - destruct (Qlt_le_dec (st_f_test st) 0) as [Hs|Hs].
    + destruct (Hneg Hs) as (-> & _). eauto.
    + destruct (Hpos Hs) as (_ & ->). eauto.
  - destruct Hrep as [[-> ->]|[-> ->]]; rewrite Hmid; qminmax.
  - destruct Hrep as [[-> ->]|[-> ->]]; rewrite Hmid; qminmax.
Qed.

Lemma within_nested lo hi st st' :
  within lo hi st -> nested st st' -> within lo hi st'.
Proof.
  unfold nested, within. intros (H1 & H2) (H3 & H4). split.
  - apply (Qle_trans _ _ _ H1 H3).
  - apply (Qle_trans _ _ _ H4 H2).
Qed.

(** The loop follows the step relation. *)
Lemma bisection_while_step fuel st st' :
  step st st' ->
  loop (S fuel) st =
    (fst (loop fuel st'),
     Loop_test true :: snd (body st) ++ snd (loop fuel st')).
Proof.
  intros (Hg & Hbody). simpl. rewrite Hg. unfold emit, bind at 1.
  destruct (body st) as [o t] eqn:E. simpl in Hbody. subst o.
  unfold bind. destruct (loop fuel st') as [o' t']. reflexivity.
Qed.

Lemma bisection_while_exit fuel st :
  Qabs (st_f_test st) < eps ->
  loop (S fuel) st = (Returns (st_x_temp st), [Loop_test false]).
Proof.
  intros Hg. apply Qge_bool_false in Hg. simpl. rewrite Hg. reflexivity.
Qed.

Lemma bisection_while_raises fuel st e :
  eps <= Qabs (st_f_test st) ->
  fst (body st) = Raises e ->
  loop (S fuel) st = (Raises e, Loop_test true :: snd (body st)).
Proof.
  intros Hg Hbody. apply Qge_bool_true in Hg. simpl. rewrite Hg.
  unfold emit, bind. destruct (body st) as [o t]. simpl in Hbody. subst o.
  reflexivity.
Qed.

(** What the loop yields from a state that satisfies the invariant. *)
Lemma bisection_while_outcome lo hi fuel :
  forall st,
    oriented f st -> midpoint_tested f st -> within lo hi st ->
    (Z.to_nat (max_its - st_count st) < fuel)%nat ->
    match fst (loop fuel st) with
    | Returns x => converged f eps x /\ lo <= x /\ x <= hi
    | Raises e =>
        (exists y, f y = inl e) \/ e = ConvergenceError bisection_msg
    | OutOfFuel => False
    end.
Proof.
  induction fuel as [|fuel IH]; intros st Hor Hmt Hin Hfuel; [lia|].
  destruct (Qlt_le_dec (Qabs (st_f_test st)) eps) as [Hg|Hg].
  - rewrite (bisection_while_exit fuel st Hg). simpl.
    destruct Hmt as (Hmid & Htest). split; [exists (st_f_test st); auto|].
    destruct Hin as (Hlo & Hhi). rewrite Hmid.
    pose proof (midpoint_between (st_x_0 st) (st_x_1 st)) as (M1 & M2).
    split; [apply (Qle_trans _ _ _ Hlo M1) | apply (Qle_trans _ _ _ M2 Hhi)].
  - pose proof (bisection_body_outcome st) as (_ & Hout).
    destruct (fst (body st)) as [st'|e|] eqn:Hbody; [| |contradiction].
    + assert (Hstep : step st st').
      { split; [apply Qge_bool_true; exact Hg | exact Hbody]. }
      rewrite (bisection_while_step fuel st st' Hstep). cbn [fst].
      destruct (bisection_step_invariant st st' Hor Hmt Hstep)
        as (Hor' & Hmt' & Hnest & _ & Hcount).
      apply IH; auto.
      * apply (within_nested lo hi st st' Hin Hnest).
      * destruct Hout as (_ & _ & _ & _ & _ & Hle). lia.
    + rewrite (bisection_while_raises fuel st e Hg Hbody). cbn [fst].
      destruct Hout as [Hy|[He _]]; auto.
Qed.

(** The invariant holds in every state the loop reaches. *)
Lemma bisection_reaches_invariant lo hi st0 st :
  oriented f st0 -> midpoint_tested f st0 -> within lo hi st0 ->
  bisection_reaches f eps max_its st0 st ->
  oriented f st /\ midpoint_tested f st /\ within lo hi st.
Proof.
  intros Hor Hmt Hin Hreach.
  induction Hreach as [|st st' Hstep Hreach IH]; [auto|].
  destruct IH as (Hor' & Hmt' & Hin').
  destruct (bisection_step_invariant st st' Hor' Hmt' Hstep)
    as (? & ? & Hnest & _).
  split; [assumption|]. split; [assumption|].
  apply (within_nested lo hi st st' Hin' Hnest).
Qed.

(** The body calls [f] once, at the new midpoint, whatever comes of it. *)
Lemma bisection_body_trace st :
  f_calls (snd (body st)) = 1%nat /\
  guard_evaluations (snd (body st)) = O.
Proof.
  unfold bisection_body, bind, call.
  match goal with |- context [f ?y] => destruct (f y) as [e|v] end;
    [split; reflexivity|].
  destruct (st_count st + 1 >? max_its)%Z; split; reflexivity.
Qed.

(** The cost of the loop: each pass evaluates the guard once and [f] once;
    the pass that leaves the loop evaluates the guard only. *)
Lemma bisection_while_cost fuel :
  forall st,
    (guard_evaluations (snd (loop fuel st)) <= fuel)%nat /\
    match fst (loop fuel st) with
    | Returns _ =>
        guard_evaluations (snd (loop fuel st))
          = S (f_calls (snd (loop fuel st)))
    | _ =>
        guard_evaluations (snd (loop fuel st)) = f_calls (snd (loop fuel st))
    end.
Proof.
  induction fuel as [|fuel IH]; intros st; [split; reflexivity|].
  destruct (Qlt_le_dec (Qabs (st_f_test st)) eps) as [Hg|Hg].
  - rewrite (bisection_while_exit fuel st Hg). cbn [fst snd].
    split; [|reflexivity]. unfold guard_evaluations. simpl. lia.
  - pose proof (bisection_body_outcome st) as (_ & Hout).
    destruct (bisection_body_trace st) as (Hbf & Hbg).
    destruct (fst (body st)) as [st'|e|] eqn:Hbody; [| |contradiction].
    + assert (Hstep : step st st').
      { split; [apply Qge_bool_true; exact Hg | exact Hbody]. }
      rewrite (bisection_while_step fuel st st' Hstep). cbn [fst snd].
      destruct (IH st') as (Hle & Hm).
      change (Loop_test true :: snd (body st) ++ snd (loop fuel st'))
        with ([Loop_test true] ++ snd (body st) ++ snd (loop fuel st')).
      rewrite !guard_evaluations_app, !f_calls_app, Hbg, Hbf.
      change (guard_evaluations [Loop_test true]) with 1%nat.
      change (f_calls [Loop_test true]) with O.
      split; [lia|].
      destruct (fst (loop fuel st')); lia.
    + rewrite (bisection_while_raises fuel st e Hg Hbody). cbn [fst snd].
      change (Loop_test true :: snd (body st))
        with ([Loop_test true] ++ snd (body st)).
      rewrite !guard_evaluations_app, !f_calls_app, Hbg, Hbf.
      change (guard_evaluations [Loop_test true]) with 1%nat.
      change (f_calls [Loop_test true]) with O.
      split; lia.
Qed.

(** When the loop's own convergence failure comes, the budget is spent to
    the last pass. *)
Lemma bisection_while_budget_spent fuel :
  never_raises_ConvergenceError f ->
  forall st msg,
    fst (loop fuel st) = Raises (ConvergenceError msg) ->
    msg = bisection_msg /\
    guard_evaluations (snd (loop fuel st))
      = S (Z.to_nat (max_its - st_count st)).
Proof.
  intros Qf. induction fuel as [|fuel IH]; intros st msg; [discriminate|].
  destruct (Qlt_le_dec (Qabs (st_f_test st)) eps) as [Hg|Hg].
  - rewrite (bisection_while_exit fuel st Hg). discriminate.
  - pose proof (bisection_body_outcome st) as (_ & Hout).
    destruct (bisection_body_trace st) as (_ & Hbg).
    destruct (fst (body st)) as [st'|e|] eqn:Hbody; [| |contradiction].
    + assert (Hstep : step st st').
      { split; [apply Qge_bool_true; exact Hg | exact Hbody]. }
      rewrite (bisection_while_step fuel st st' Hstep). cbn [fst snd].
      intros H. destruct (IH st' msg H) as (Hmsg & Hcount).
      split; [exact Hmsg|].
      change (Loop_test true :: snd (body st) ++ snd (loop fuel st'))
        with ([Loop_test true] ++ snd (body st) ++ snd (loop fuel st')).
      rewrite !guard_evaluations_app, Hbg, Hcount.
      change (guard_evaluations [Loop_test true]) with 1%nat.
      destruct Hout as (_ & _ & _ & _ & Hc & Hle). lia.
    + rewrite (bisection_while_raises fuel st e Hg Hbody). cbn [fst snd].
      intros H. injection H as ->.
      destruct Hout as [(y & Hy)|(Hmsg & Hc)];
        [exfalso; apply (Qf y msg Hy)|].
      injection Hmsg as ->. split; [reflexivity|].
      change (Loop_test true :: snd (body st))
        with ([Loop_test true] ++ snd (body st)).
      rewrite guard_evaluations_app, Hbg.
      change (guard_evaluations [Loop_test true]) with 1%nat. lia.
Qed.

(** A completed iteration halves the width of the bracket. *)
Lemma bisection_step_halves st st' :
  midpoint_tested f st -> step st st' ->
  width st' == width st * (1 # 2).
Proof.
  intros (Hmid & _) (_ & Hbody).
  pose proof (bisection_body_outcome st) as (_ & Hout).
  rewrite Hbody in Hout. destruct Hout as (Hrep & _).
  unfold width.
  assert (Hhalf : Qabs ((st_x_0 st - st_x_1 st) * (1 # 2))
                  == Qabs (st_x_0 st - st_x_1 st) * (1 # 2)).
  { rewrite Qabs_Qmult. reflexivity. }
  rewrite <- Hhalf.
  destruct Hrep as [[-> ->]|[-> ->]]; rewrite Hmid; apply Qabs_wd;
    unfold Qdiv; change (/ 2) with (1 # 2); ring.
Qed.

(** After [count] iterations the bracket is [2 ^ count] times narrower than
    at the start. *)
Lemma bisection_reaches_width st0 st :
  midpoint_tested f st0 -> oriented f st0 -> st_count st0 = 0%Z ->
  bisection_reaches f eps max_its st0 st ->
  (0 <= st_count st)%Z /\
  width st * 2 ^ st_count st == width st0.
Proof.
  intros Hmt Hor Hc0 Hreach.
  induction Hreach as [|st st' Hstep Hreach IH].
  - rewrite Hc0. split; [lia|]. change (2 ^ 0) with 1. ring.
  - destruct IH as (Hpos & Hw).
    destruct (bisection_reaches_invariant
                (Qmin (st_x_0 st0) (st_x_1 st0))
                (Qmax (st_x_0 st0) (st_x_1 st0)) st0 st
                Hor Hmt) as (Hor' & Hmt' & _).
    { unfold within. split; apply Qle_refl. }
    { exact Hreach. }
    destruct (bisection_step_invariant st st' Hor' Hmt' Hstep)
      as (_ & _ & _ & _ & Hcount).
    rewrite Hcount. split; [lia|].
    rewrite (bisection_step_halves st st' Hmt' Hstep).
    rewrite Qpower_plus by (intros H0; discriminate H0).
    change (2 ^ 1) with 2. rewrite <- Hw. ring.
Qed.

(** For a Lipschitz function, the value at the midpoint of an oriented
    bracket is bounded by the slope times half the width. *)
Lemma lipschitz_midpoint L st :
  lipschitz f L -> oriented f st -> midpoint_tested f st ->
  Qabs (st_f_test st) <= L * width st * (1 # 2).
Proof.
  intros Hlip ((a & Ha & Hapos) & (b & Hb & Hbneg)) (Hmid & Htest).
  pose proof (Hlip _ _ _ _ Ha Htest) as H0.
  pose proof (Hlip _ _ _ _ Hb Htest) as H1.
  assert (E0 : Qabs (st_x_0 st - st_x_temp st) == width st * (1 # 2)).
  { unfold width. rewrite <- (Qabs_pos (1 # 2)) by (intro H; discriminate H).
    rewrite <- Qabs_Qmult. apply Qabs_wd. rewrite Hmid.
    unfold Qdiv; change (/ 2) with (1 # 2); ring. }
  assert (E1 : Qabs (st_x_1 st - st_x_temp st) == width st * (1 # 2)).
  { unfold width. rewrite <- (Qabs_pos (1 # 2)) by (intro H; discriminate H).
    rewrite <- Qabs_Qmult, <- Qabs_opp. apply Qabs_wd. rewrite Hmid.
    unfold Qdiv; change (/ 2) with (1 # 2); ring. }
  rewrite E0 in H0. rewrite E1 in H1.
  apply Qabs_Qle_condition in H0. apply Qabs_Qle_condition in H1.
  apply Qabs_Qle_condition. lra.
Qed.

(** With a budget that the halving outruns, the loop returns. *)
Lemma bisection_while_converges L fuel :
  total_callable f -> lipschitz f L ->
  forall st P,
    oriented f st -> midpoint_tested f st ->
    (st_count st <= max_its)%Z ->
    L * width st <= P ->
    P < eps * 2 ^ (max_its - st_count st + 1) ->
    (Z.to_nat (max_its - st_count st) < fuel)%nat ->
    exists x, fst (loop fuel st) = Returns x.
Proof.
  intros Htot Hlip.
  induction fuel as [|fuel IH]; intros st P Hor Hmt Hc HP Hpow Hfuel; [lia|].
  destruct (Qlt_le_dec (Qabs (st_f_test st)) eps) as [Hg|Hg].
  - rewrite (bisection_while_exit fuel st Hg). cbn [fst]. eauto.
  - pose proof (lipschitz_midpoint L st Hlip Hor Hmt) as Hm.
    rewrite Qpower_plus in Hpow by (intros H0; discriminate H0).
    change (2 ^ 1) with 2 in Hpow.
    assert (Hlt : (st_count st < max_its)%Z).
    { destruct (Z_lt_le_dec (st_count st) max_its) as [Hlt|Hge]; [exact Hlt|].
      exfalso. replace (max_its - st_count st)%Z with 0%Z in Hpow by lia.
      change (2 ^ 0) with 1 in Hpow. lra. }
    pose proof (bisection_body_outcome st) as (_ & Hout).
    destruct (fst (body st)) as [st'|e|] eqn:Hbody; [| |contradiction].
    + assert (Hstep : step st st').
      { split; [apply Qge_bool_true; exact Hg | exact Hbody]. }
      rewrite (bisection_while_step fuel st st' Hstep). cbn [fst].
      destruct (bisection_step_invariant st st' Hor Hmt Hstep)
        as (Hor' & Hmt' & _ & _ & Hcount).
      apply (IH st' (P * (1 # 2))); try assumption.
      * lia.
      * rewrite (bisection_step_halves st st' Hmt Hstep). lra.
      * rewrite Hcount.
        replace (max_its - (st_count st + 1) + 1)%Z
          with (max_its - st_count st)%Z by lia.
        lra.
      * lia.
    + exfalso. destruct Hout as [(y & Hy)|(_ & Hgt)]; [|lia].
      destruct (Htot y) as (v & Hv). congruence.
Qed.

End BisectionFacts.

(** The orientation swap establishes the sign convention. *)
Lemma bisection_init_outcome (f : callable) (x_0 x_1 a b : Q) :
  f x_0 = inr a -> f x_1 = inr b -> opposite_sign a b ->
  snd (bisection_init f x_0 x_1 a) <> [] /\
  match fst (bisection_init f x_0 x_1 a) with
  | Returns st =>
      oriented f st /\ midpoint_tested f st /\
      within (Qmin x_0 x_1) (Qmax x_0 x_1) st /\ st_count st = 0%Z /\
      ((st_x_0 st = x_0 /\ st_x_1 st = x_1) \/
       (st_x_0 st = x_1 /\ st_x_1 st = x_0))
  | Raises e => exists y, f y = inl e
  | OutOfFuel => False
  end.
Proof.
  intros Ha Hb Hsign. unfold bisection_init.
  destruct (Qlt_bool a 0) eqn:Hswap; unfold bind, call.
  - apply Qlt_bool_true in Hswap.
    destruct (f ((x_1 + x_0) / 2)) as [e|v] eqn:Hf; simpl;
      (split; [discriminate|]); [eauto|].
    unfold oriented, midpoint_tested, within. simpl.
    destruct Hsign as [[_ Hbpos]|[Hbneg Hapos]]; [|lra].
    repeat split; eauto using Qlt_le_weak; qminmax.
  - apply Qlt_bool_false in Hswap.
    destruct (f ((x_0 + x_1) / 2)) as [e|v] eqn:Hf; simpl;
      (split; [discriminate|]); [eauto|].
    unfold oriented, midpoint_tested, within. simpl.
    destruct Hsign as [[Haneg _]|[Hbneg Hapos]]; [lra|].
    repeat split; eauto; qminmax.
Qed.

(** ** Totality *)

(** [newton_raphson] always ends: it returns or raises. *)
Lemma newton_raphson_total f df x_0 eps max_its :
  fst (newton_raphson f df x_0 eps max_its) <> OutOfFuel.
Proof.
  unfold newton_raphson. apply newton_while_total.
  rewrite Z.sub_0_r. lia.
Qed.

(** ** Concrete callables used to exercise the statements *)

Ltac qcompute :=
  vm_compute; try reflexivity; try (intro; discriminate).


(** ** Claims about newton_raphson *)

(** C7. If [abs(f(x_0)) < eps] holds at the starting point, [newton_raphson]
    evaluates the guard once, performs no iteration, never calls [df], and
    returns [x_0] unchanged, whatever [df] and [max_its] are. *)
Theorem newton_raphson_zero_iterations f df x_0 eps max_its v :
  f x_0 = inr v -> Qabs v < eps ->
  newton_raphson f df x_0 eps max_its
    = (Returns x_0, [Call_f x_0; Loop_test false]) /\
  df_calls (snd (newton_raphson f df x_0 eps max_its)) = O.
Proof.
  intros Hf Hv. unfold newton_raphson.
  rewrite (newton_while_converged f df eps max_its _ x_0 0%Z v Hf Hv).
  split; reflexivity.
Qed.

Lemma newton_raphson_zero_iterations_witness :
  newton_raphson (fun x => inr (x * x - 4)) (fun _ => inl ZeroDivisionError)
    2 default_eps 20
    = (Returns 2, [Call_f 2; Loop_test false]) /\
  df_calls (snd (newton_raphson (fun x => inr (x * x - 4))
                   (fun _ => inl ZeroDivisionError) 2 default_eps 20)) = O.
Proof.
  apply (newton_raphson_zero_iterations
           (fun x => inr (x * x - 4)) (fun _ => inl ZeroDivisionError)
           2 default_eps 20 (2 * 2 - 4)).
  - reflexivity.
  - qcompute.
Defined.

(** Over exact rationals, where the order is total: whenever
    [newton_raphson] returns, its result is the first element
    of the Newton iterate sequence [x_{k+1} = x_k - f(x_k)/df(x_k)] from
    [x_0] that satisfies [abs(f(x)) < eps]: it is the iterate of some index
    [k], it meets the tolerance, and every earlier iterate misses it. *)
Theorem newton_raphson_returns_first_converged f df x_0 eps max_its x t :
  newton_raphson f df x_0 eps max_its = (Returns x, t) ->
  exists k,
    newton_iterate f df k x_0 = Some x /\
    converged f eps x /\
    (forall j, (j < k)%nat ->
       exists xj, newton_iterate f df j x_0 = Some xj /\
                  not_converged f eps xj /\ ~ converged f eps xj) /\
    guard_evaluations t = S k.
Proof.
  unfold newton_raphson. intros H.
  destruct (newton_while_returns f df eps max_its _ _ _ _ _ H)
    as (k & (Hk & Hx & Hbefore) & Hg & _).
  exists k. repeat split; try assumption.
  intros j Hj. destruct (Hbefore j Hj) as (xj & Hxj & Hnc).
  exists xj. repeat split; try assumption.
  destruct Hnc as (v & Hv & Hge). intros (v' & Hv' & Hlt).
  assert (v' = v) by congruence. subst v'. apply (Qlt_not_le _ _ Hlt Hge).
Qed.

Lemma newton_raphson_returns_first_converged_witness :
  exists k,
    newton_iterate (fun x => inr (x - 1)) (fun _ => inr 1) k 3 = Some (3 - 2 / 1) /\
    converged (fun x => inr (x - 1)) default_eps (3 - 2 / 1) /\
    (forall j, (j < k)%nat ->
       exists xj, newton_iterate (fun x => inr (x - 1)) (fun _ => inr 1) j 3
                  = Some xj /\
                  not_converged (fun x => inr (x - 1)) default_eps xj /\
                  ~ converged (fun x => inr (x - 1)) default_eps xj) /\
    guard_evaluations
      [Call_f 3; Loop_test true; Call_f 3; Call_df 3;
       Call_f (3 - 2 / 1); Loop_test false] = S k.
Proof.
  apply (newton_raphson_returns_first_converged
           (fun x => inr (x - 1)) (fun _ => inr 1) 3 default_eps 20).
  reflexivity.
Defined.

(** C10. [newton_raphson] accepts [max_its = 0]: when [abs(f(x_0)) >= eps] it
    still performs one full update, calling [df] once, before the budget test
    raises [ConvergenceError]; and when [df(x_0)] is zero the division raises
    [ZeroDivisionError] instead, after the same single call of [df]. *)
Theorem newton_raphson_zero_budget f df x_0 eps v d :
  f x_0 = inr v -> eps <= Qabs v -> df x_0 = inr d ->
  (~ d == 0 ->
     newton_raphson f df x_0 eps 0
       = (Raises (ConvergenceError newton_msg), update_trace x_0)) /\
  (d == 0 ->
     newton_raphson f df x_0 eps 0
       = (Raises ZeroDivisionError, update_trace x_0)) /\
  df_calls (update_trace x_0) = 1%nat /\
  guard_evaluations (update_trace x_0) = 1%nat.
Proof.
  intros Hf Hv Hdf. unfold newton_raphson. repeat split.
  - intros Hd. apply (newton_while_exceeds f df eps 0 _ x_0 0%Z v d); auto. lia.
  - intros Hd. apply (newton_while_zero_division f df eps 0 _ x_0 0%Z v d); auto.
Qed.

Lemma newton_raphson_zero_budget_witness :
  (~ 0 == 0 ->
     newton_raphson (fun x => inr (x * x + 1)) (fun x => inr (2 * x)) 0
       default_eps 0
       = (Raises (ConvergenceError newton_msg), update_trace 0)) /\
  (0 == 0 ->
     newton_raphson (fun x => inr (x * x + 1)) (fun x => inr (2 * x)) 0
       default_eps 0
       = (Raises ZeroDivisionError, update_trace 0)) /\
  df_calls (update_trace 0) = 1%nat /\
  guard_evaluations (update_trace 0) = 1%nat.
Proof.
  apply (newton_raphson_zero_budget
           (fun x => inr (x * x + 1)) (fun x => inr (2 * x)) 0 default_eps
           (0 * 0 + 1) 0).
  - reflexivity.
  - qcompute.
  - apply (f_equal inr). qcompute.
Defined.



(** The run of the specification's example, with the true derivative. *)
Example newton_raphson_no_root_run :
  fst (newton_raphson (fun x => inr (x * x + 1)) (fun x => inr (2 * x)) 2
         default_eps 5) = Raises (ConvergenceError newton_msg) /\
  guard_evaluations
    (snd (newton_raphson (fun x => inr (x * x + 1)) (fun x => inr (2 * x)) 2
            default_eps 5)) = 6%nat.
Proof. split; vm_compute; reflexivity. Qed.

(** With the same function, a derivative that vanishes on the way ends the
    run with the division fault before the budget is spent. *)
Example newton_raphson_no_root_zero_derivative :
  newton_raphson (fun x => inr (x * x + 1)) (fun x => inr (2 * x)) 1
    default_eps 5
  = (Raises ZeroDivisionError, update_trace 1 ++ update_trace (1 - (1 * 1 + 1) / (2 * 1))).
Proof. reflexivity. Qed.

(** ** Claims about bisection *)

Lemma bisection_rejects f x_0 x_1 eps max_its a b :
  f x_0 = inr a -> f x_1 = inr b -> 0 <= a * b ->
  bisection f x_0 x_1 eps max_its
    = (Raises (ValueError bracket_msg), [Call_f x_0; Call_f x_1]).
Proof.
  intros Ha Hb Hab. unfold bisection, bind, call. rewrite Ha, Hb.
  apply Qge_bool_true in Hab. rewrite Hab. reflexivity.
Qed.

Lemma bisection_accepts f x_0 x_1 eps max_its a b :
  f x_0 = inr a -> f x_1 = inr b -> a * b < 0 ->
  bisection f x_0 x_1 eps max_its
    = (fst (st <- bisection_init f x_0 x_1 a ;;
            bisection_while f eps max_its (S (Z.to_nat max_its)) st),
       Call_f x_0 :: Call_f x_1 ::
       snd (st <- bisection_init f x_0 x_1 a ;;
            bisection_while f eps max_its (S (Z.to_nat max_its)) st)).
Proof.
  intros Ha Hb Hab. unfold bisection.
  unfold bind at 1, call at 1. rewrite Ha.
  unfold bind at 1, call at 1. rewrite Hb.
  apply Qge_bool_false in Hab. rewrite Hab.
  destruct (st <- bisection_init f x_0 x_1 a ;;
            bisection_while f eps max_its (S (Z.to_nat max_its)) st)
    as [o t]. reflexivity.
Qed.

(** What the loop phase yields on a sign-changing bracket. *)
Lemma bisection_loop_outcome f x_0 x_1 eps max_its a b :
  f x_0 = inr a -> f x_1 = inr b -> opposite_sign a b ->
  snd (st <- bisection_init f x_0 x_1 a ;;
       bisection_while f eps max_its (S (Z.to_nat max_its)) st) <> [] /\
  match fst (st <- bisection_init f x_0 x_1 a ;;
             bisection_while f eps max_its (S (Z.to_nat max_its)) st) with
  | Returns x =>
      converged f eps x /\ Qmin x_0 x_1 <= x /\ x <= Qmax x_0 x_1
  | Raises e => (exists y, f y = inl e) \/ e = ConvergenceError bisection_msg
  | OutOfFuel => False
  end.
Proof.
  intros Ha Hb Hsign.
  destruct (bisection_init_outcome f x_0 x_1 a b Ha Hb Hsign) as (Hne & Hinit).
  unfold bind.
  destruct (bisection_init f x_0 x_1 a) as [[st|e|] t0];
    cbn [fst snd] in Hinit, Hne; cbv beta iota;
    [| cbn [fst snd]; auto | contradiction].
  destruct Hinit as (Hor & Hmt & Hin & Hcount & _).
  pose proof (bisection_while_outcome f eps max_its (Qmin x_0 x_1)
                (Qmax x_0 x_1) (S (Z.to_nat max_its)) st Hor Hmt Hin) as Hout.
  rewrite Hcount, Z.sub_0_r in Hout. specialize (Hout ltac:(lia)).
  destruct (bisection_while f eps max_its (S (Z.to_nat max_its)) st)
    as [o t]. cbn [fst snd] in *. split; [|exact Hout].
  destruct t0; [contradiction|discriminate].
Qed.

(** [bisection] always ends: it returns or raises. *)
Lemma bisection_total f x_0 x_1 eps max_its :
  fst (bisection f x_0 x_1 eps max_its) <> OutOfFuel.
Proof.
  destruct (f x_0) as [e|a] eqn:Ha.
  { unfold bisection. unfold bind at 1, call at 1. rewrite Ha. discriminate. }
  destruct (f x_1) as [e|b] eqn:Hb.
  { unfold bisection. unfold bind at 1, call at 1. rewrite Ha.
    unfold bind at 1, call at 1. rewrite Hb. discriminate. }
  destruct (Qlt_le_dec (a * b) 0) as [Hab|Hab].
  - rewrite (bisection_accepts f x_0 x_1 eps max_its a b Ha Hb Hab).
    cbn [fst].
    apply opposite_sign_product in Hab.
    destruct (bisection_loop_outcome f x_0 x_1 eps max_its a b Ha Hb Hab)
      as (_ & Hout).
    intros E. rewrite E in Hout. exact Hout.
  - rewrite (bisection_rejects f x_0 x_1 eps max_its a b Ha Hb Hab).
    discriminate.
Qed.

(** The first thing [bisection] does is call [f]. *)
Lemma bisection_trace_nonempty f x_0 x_1 eps max_its :
  snd (bisection f x_0 x_1 eps max_its) <> [].
Proof.
  unfold bisection. unfold bind at 1, call at 1.
  destruct (f x_0) as [e|a]; [discriminate|].
  match goal with |- context [let (o, t') := ?m in _] => destruct m end.
  discriminate.
Qed.



(** The specification's example of a rejected bracket: [f(x) = x - 1] on
    [[2, 3]], where [f] is positive at both ends. *)
Example bisection_same_sign_run :
  bisection (fun x => inr (x - 1)) 2 3 default_eps 20
    = (Raises (ValueError bracket_msg), [Call_f 2; Call_f 3]).
Proof. reflexivity. Qed.


(** Over exact rationals, where a product does not underflow and a
    midpoint lies between the ends: on a bracket whose ends have values of
    [f] of strictly
    opposite sign, [bisection] ends in one of three ways: it returns a value
    [x] with [abs(f(x)) < eps] lying in the closed interval
    [[min(x_0, x_1), max(x_0, x_1)]]; or it raises the [ConvergenceError] of
    the budget test; or it lets through what [f] raised at a midpoint. *)
Theorem bisection_returns_within_tolerance f x_0 x_1 eps max_its a b :
  f x_0 = inr a -> f x_1 = inr b -> opposite_sign a b ->
  match fst (bisection f x_0 x_1 eps max_its) with
  | Returns x => converged f eps x /\ Qmin x_0 x_1 <= x /\ x <= Qmax x_0 x_1
  | Raises e => (exists y, f y = inl e) \/ e = ConvergenceError bisection_msg
  | OutOfFuel => False
  end.
Proof.
  intros Ha Hb Hsign.
  assert (Hab : a * b < 0) by (apply opposite_sign_product; exact Hsign).
  rewrite (bisection_accepts f x_0 x_1 eps max_its a b Ha Hb Hab).
  cbn [fst].
  apply (bisection_loop_outcome f x_0 x_1 eps max_its a b Ha Hb Hsign).
Qed.

Lemma bisection_returns_within_tolerance_witness :
  match fst (bisection (fun x => inr x) (-1) 3 default_eps 1) with
  | Returns x =>
      converged (fun x => inr x) default_eps x /\
      Qmin (-1) 3 <= x /\ x <= Qmax (-1) 3
  | Raises e =>
      (exists y, (fun x : Q => @inr exn Q x) y = inl e) \/
      e = ConvergenceError bisection_msg
  | OutOfFuel => False
  end.
Proof.
  apply (bisection_returns_within_tolerance
           (fun x => inr x) (-1) 3 default_eps 1 (-1) 3).
  - reflexivity.
  - reflexivity.
  - left. split; reflexivity.
Defined.

(** The same bracket under the two budgets: one more iteration is all that
    separates the failure from the root. *)
Example bisection_budget_runs :
  fst (bisection (fun x => inr x) (-1) 3 default_eps 0)
    = Raises (ConvergenceError bisection_msg) /\
  fst (bisection (fun x => inr x) (-1) 3 default_eps 1) = Returns (0 # 4).
Proof. split; reflexivity. Qed.

(** C8. In every iteration of the loop of a [bisection] call, [f_test] is
    the value of [f] at the current midpoint, and: if it is [>= 0] (zero
    included) the midpoint replaces [x_0], the end that carries the
    convention [f(x_0) >= 0], and [x_1] is kept; if it is negative the
    midpoint replaces [x_1], and [x_0] is kept. *)
Theorem bisection_tie_break f x_0 x_1 eps max_its a b st0 st st' :
  f x_0 = inr a -> f x_1 = inr b -> opposite_sign a b ->
  fst (bisection_init f x_0 x_1 a) = Returns st0 ->
  bisection_reaches f eps max_its st0 st ->
  bisection_step f eps max_its st st' ->
  f (st_x_temp st) = inr (st_f_test st) /\
  (0 <= st_f_test st ->
     st_x_0 st' = st_x_temp st /\ st_x_1 st' = st_x_1 st) /\
  (st_f_test st < 0 ->
     st_x_1 st' = st_x_temp st /\ st_x_0 st' = st_x_0 st).
Proof.
  intros Ha Hb Hsign Hinit Hreach Hstep.
  destruct (bisection_init_outcome f x_0 x_1 a b Ha Hb Hsign) as (_ & H0).
  rewrite Hinit in H0. destruct H0 as (Hor & Hmt & Hin & _).
  destruct (bisection_reaches_invariant f eps max_its _ _ st0 st
              Hor Hmt Hin Hreach) as (_ & (_ & Htest) & _).
  split; [exact Htest|].
  pose proof (bisection_body_outcome f max_its st) as (_ & Hout).
  destruct Hstep as (_ & Hbody). rewrite Hbody in Hout.
  destruct Hout as (_ & Hpos & Hneg & _). split; assumption.
Qed.

Lemma bisection_tie_break_witness :
  (fun x : Q => @inr exn Q x) (st_x_temp (mk_state 3 (-1) (2 # 2) (2 # 2) 0))
    = inr (st_f_test (mk_state 3 (-1) (2 # 2) (2 # 2) 0)) /\
  (0 <= st_f_test (mk_state 3 (-1) (2 # 2) (2 # 2) 0) ->
     st_x_0 (mk_state (2 # 2) (-1) (0 # 4) (0 # 4) 1)
       = st_x_temp (mk_state 3 (-1) (2 # 2) (2 # 2) 0) /\
     st_x_1 (mk_state (2 # 2) (-1) (0 # 4) (0 # 4) 1)
       = st_x_1 (mk_state 3 (-1) (2 # 2) (2 # 2) 0)) /\
  (st_f_test (mk_state 3 (-1) (2 # 2) (2 # 2) 0) < 0 ->
     st_x_1 (mk_state (2 # 2) (-1) (0 # 4) (0 # 4) 1)
       = st_x_temp (mk_state 3 (-1) (2 # 2) (2 # 2) 0) /\
     st_x_0 (mk_state (2 # 2) (-1) (0 # 4) (0 # 4) 1)
       = st_x_0 (mk_state 3 (-1) (2 # 2) (2 # 2) 0)).
Proof.
  apply (bisection_tie_break (fun x => inr x) (-1) 3 default_eps 20 (-1) 3
           (mk_state 3 (-1) (2 # 2) (2 # 2) 0)).
  - reflexivity.
  - reflexivity.
  - left. split; reflexivity.
  - reflexivity.
  - apply rtn1_refl.
  - split; reflexivity.
Defined.

(** Over exact rationals: after the orientation swap, in every state the
    loop of a
    [bisection] call reaches, [f(x_0) >= 0] and [f(x_1) < 0] hold for the
    current ends and the bracket lies in the initial interval; and every
    iteration leaves a bracket contained in the one it started from, each
    end being kept or replaced by the current midpoint. *)
Theorem bisection_bracket_invariant f x_0 x_1 eps max_its a b st0 st :
  f x_0 = inr a -> f x_1 = inr b -> opposite_sign a b ->
  fst (bisection_init f x_0 x_1 a) = Returns st0 ->
  bisection_reaches f eps max_its st0 st ->
  oriented f st /\
  within (Qmin x_0 x_1) (Qmax x_0 x_1) st /\
  (forall st', bisection_step f eps max_its st st' ->
     nested st st' /\ replaced_by_midpoint st st').
Proof.
  intros Ha Hb Hsign Hinit Hreach.
  destruct (bisection_init_outcome f x_0 x_1 a b Ha Hb Hsign) as (_ & H0).
  rewrite Hinit in H0. destruct H0 as (Hor & Hmt & Hin & _).
  destruct (bisection_reaches_invariant f eps max_its _ _ st0 st
              Hor Hmt Hin Hreach) as (Hor' & Hmt' & Hin').
  split; [exact Hor'|]. split; [exact Hin'|].
  intros st' Hstep.
  destruct (bisection_step_invariant f eps max_its st st' Hor' Hmt' Hstep)
    as (_ & _ & Hnest & Hrep & _).
  split; assumption.
Qed.

Lemma bisection_bracket_invariant_witness :
  oriented (fun x => inr x) (mk_state (2 # 2) (-1) (0 # 4) (0 # 4) 1) /\
  within (Qmin (-1) 3) (Qmax (-1) 3) (mk_state (2 # 2) (-1) (0 # 4) (0 # 4) 1) /\
  (forall st',
     bisection_step (fun x => inr x) default_eps 20
       (mk_state (2 # 2) (-1) (0 # 4) (0 # 4) 1) st' ->
     nested (mk_state (2 # 2) (-1) (0 # 4) (0 # 4) 1) st' /\
     replaced_by_midpoint (mk_state (2 # 2) (-1) (0 # 4) (0 # 4) 1) st').
Proof.
  apply (bisection_bracket_invariant (fun x => inr x) (-1) 3 default_eps 20
           (-1) 3 (mk_state 3 (-1) (2 # 2) (2 # 2) 0)).
  - reflexivity.
  - reflexivity.
  - left. split; reflexivity.
  - reflexivity.
  - apply (rtn1_trans _ _ _ (mk_state 3 (-1) (2 # 2) (2 # 2) 0)).
    + split; reflexivity.
    + apply rtn1_refl.
Defined.

(** ** Claims about solve *)

Lemma bind_ret {A : Type} (m : M A) : (x <- m ;; ret x) = m.
Proof.
  destruct m as [[a|e|] t]; unfold bind, ret; try reflexivity.
  rewrite app_nil_r. reflexivity.
Qed.

(** [solve] is the Newton-Raphson call with the bisection call as the
    handler of [ConvergenceError]. *)
Lemma solve_unfold f df x_0 x_1 eps max_its_n max_its_b :
  solve f df x_0 x_1 eps max_its_n max_its_b
  = try_except_ConvergenceError
      (newton_raphson f df x_0 eps max_its_n)
      (bisection f x_0 x_1 eps max_its_b).
Proof. unfold solve. rewrite !bind_ret. reflexivity. Qed.

(** C1. When the Newton-Raphson call returns, [solve] returns its result
    and does nothing more, whatever [x_1] and [max_its_b] are.  When it
    raises a [ConvergenceError], [solve] goes on with
    [bisection(f, x_0, x_1, eps, max_its_b)] and ends as that call ends: with
    its result, or with the exception it raises, the invalid-bracket
    [ValueError] included. *)
Theorem solve_newton_then_bisection f df x_0 x_1 eps max_its_n max_its_b :
  (forall x t,
     newton_raphson f df x_0 eps max_its_n = (Returns x, t) ->
     solve f df x_0 x_1 eps max_its_n max_its_b = (Returns x, t)) /\
  (forall msg t,
     newton_raphson f df x_0 eps max_its_n
       = (Raises (ConvergenceError msg), t) ->
     solve f df x_0 x_1 eps max_its_n max_its_b
       = (fst (bisection f x_0 x_1 eps max_its_b),
          t ++ snd (bisection f x_0 x_1 eps max_its_b))).
Proof.
  rewrite solve_unfold. unfold try_except_ConvergenceError. split.
  - intros x t ->. reflexivity.
  - intros msg t ->. destruct (bisection f x_0 x_1 eps max_its_b).
    reflexivity.
Qed.

Lemma solve_newton_then_bisection_witness :
  solve (fun x => inr (x - 1)) (fun _ => inr 1) 3 7 default_eps 20 0
    = (Returns (3 - 2 / 1),
       [Call_f 3; Loop_test true; Call_f 3; Call_df 3;
        Call_f (3 - 2 / 1); Loop_test false]).
Proof.
  apply (solve_newton_then_bisection
           (fun x => inr (x - 1)) (fun _ => inr 1) 3 7 default_eps 20 0).
  reflexivity.
Defined.

(** The fallback at work: for [f(x) = x] with a derivative supplied too
    large, Newton-Raphson spends its budget; bisection then finds the root,
    rejects the bracket, or spends its own budget. *)
Example solve_falls_back :
  fst (solve (fun x => inr x) (fun _ => inr 4) 1 (-1) default_eps 0 3)
    = Returns (0 # 2) /\
  fst (solve (fun x => inr x) (fun _ => inr 4) 1 3 default_eps 0 3)
    = Raises (ValueError bracket_msg) /\
  fst (solve (fun x => inr x) (fun _ => inr 4) 3 (-1) default_eps 0 0)
    = Raises (ConvergenceError bisection_msg).
Proof. repeat split; reflexivity. Qed.

(** C6. An exception of the Newton-Raphson phase that is not a
    [ConvergenceError] is not caught: [solve] raises it, with the trace of
    the Newton-Raphson call and nothing after it.  A call of [bisection]
    would have added to the trace, so none took place. *)
Theorem solve_other_errors_propagate f df x_0 x_1 eps max_its_n max_its_b e t :
  newton_raphson f df x_0 eps max_its_n = (Raises e, t) ->
  (forall msg, e <> ConvergenceError msg) ->
  solve f df x_0 x_1 eps max_its_n max_its_b = (Raises e, t) /\
  snd (bisection f x_0 x_1 eps max_its_b) <> [].
Proof.
  intros Hn He. split; [|apply bisection_trace_nonempty].
  rewrite solve_unfold, Hn. unfold try_except_ConvergenceError.
  destruct e as [msg| | |]; try reflexivity.
  exfalso. apply (He msg). reflexivity.
Qed.

Lemma solve_other_errors_propagate_witness :
  solve (fun x => inr (x * x + 1)) (fun x => inr (2 * x)) 0 3 default_eps 20 20
    = (Raises ZeroDivisionError, update_trace 0) /\
  snd (bisection (fun x => inr (x * x + 1)) 0 3 default_eps 20) <> [].
Proof.
  apply (solve_other_errors_propagate
           (fun x => inr (x * x + 1)) (fun x => inr (2 * x)) 0 3
           default_eps 20 20).
  - reflexivity.
  - intros msg. discriminate.
Defined.

(** [solve] always ends: it returns or raises. *)
Lemma solve_total f df x_0 x_1 eps max_its_n max_its_b :
  fst (solve f df x_0 x_1 eps max_its_n max_its_b) <> OutOfFuel.
Proof.
  rewrite solve_unfold. unfold try_except_ConvergenceError.
  pose proof (newton_raphson_total f df x_0 eps max_its_n) as Hn.
  pose proof (bisection_total f x_0 x_1 eps max_its_b) as Hbis.
  destruct (newton_raphson f df x_0 eps max_its_n) as [[x|[msg| | |]|] t];
    try discriminate; [|exact Hn].
  destruct (bisection f x_0 x_1 eps max_its_b) as [o t']. exact Hbis.
Qed.

(** The specification's example: [f(x) = x^2 - 2] from [x_0 = 1] is solved
    on the Newton-Raphson path, in three updates, near [1.41421]. *)
Example solve_sqrt2_run :
  fst (solve (fun x => inr (x * x - 2)) (fun x => inr (2 * x)) 1 2
         default_eps default_max_its default_max_its)
    = Returns (21270528 # 15040512) /\
  df_calls (snd (solve (fun x => inr (x * x - 2)) (fun x => inr (2 * x)) 1 2
                   default_eps default_max_its default_max_its)) = 3%nat.
Proof. split; vm_compute; reflexivity. Qed.


(** * Further properties of the solvers *)

(** ** newton_raphson *)

Lemma first_converged_runs_over f df eps n :
  forall k x y,
    first_converged f df eps k x y -> (n < k)%nat ->
    runs_over f df eps n x.
Proof.
  induction n as [|n IH]; intros k x y (Hk & Hy & Hbefore) Hn;
    (destruct k as [|k]; [lia|]);
    destruct (Hbefore O ltac:(lia)) as (x0 & E0 & Hnc);
    simpl in E0; injection E0 as <-;
    simpl in Hk; simpl; (split; [exact Hnc|]);
    destruct (newton_update f df x) as [x'|] eqn:U; try discriminate.
  - exact I.
  - apply (IH k x' y); [|lia].
    split; [exact Hk|]. split; [exact Hy|].
    intros j Hj. specialize (Hbefore (S j) ltac:(lia)).
    simpl in Hbefore. rewrite U in Hbefore. exact Hbefore.
Qed.

(** Over exact rationals: [newton_raphson] returns [y] exactly when [y] is
    the first Newton
    iterate from [x_0] that meets the tolerance and its index is [0] or at
    most [max_its]. *)
Theorem newton_raphson_returns_iff f df x_0 eps max_its y :
  (exists t, newton_raphson f df x_0 eps max_its = (Returns y, t)) <->
  (exists k, first_converged f df eps k x_0 y /\
             (k = O \/ (Z.of_nat k <= max_its)%Z)).
Proof.
  unfold newton_raphson. split.
  - intros (t & H).
    destruct (newton_while_returns f df eps max_its _ _ _ _ _ H)
      as (k & Hfc & _ & _ & Hb).
    exists k. split; [exact Hfc|]. destruct Hb as [->|Hb]; [left|right]; lia.
  - intros (k & Hfc & Hb).
    destruct (newton_while_complete f df eps max_its k
                (S (Z.to_nat max_its)) x_0 0%Z y Hfc) as (t & Ht & _).
    + destruct Hb as [->|Hb]; [left; reflexivity|right; lia].
    + destruct Hb as [->|Hb]; lia.
    + exists t. exact Ht.
Qed.

(** An iterate that first meets the tolerance at an index past [max_its] is
    not returned: the budget test raises [ConvergenceError], also when the
    index is [max_its + 1] and the iterate has just been computed. *)
Theorem newton_raphson_late_convergence_discarded f df x_0 eps max_its k y :
  first_converged f df eps k x_0 y ->
  (0 < k)%nat -> (max_its < Z.of_nat k)%Z ->
  exists t,
    newton_raphson f df x_0 eps max_its
      = (Raises (ConvergenceError newton_msg), t) /\
    guard_evaluations t = S (Z.to_nat max_its).
Proof.
  intros Hfc Hk Hlate. unfold newton_raphson.
  assert (E : Z.to_nat max_its = Z.to_nat (max_its - 0)) by (f_equal; lia).
  rewrite E. apply runs_over_raises; [lia|].
  apply (first_converged_runs_over f df eps _ k x_0 y Hfc). lia.
Qed.

Lemma newton_raphson_late_convergence_discarded_witness :
  exists t,
    newton_raphson (fun x => inr (x - 1)) (fun _ => inr 1) 3 default_eps 0
      = (Raises (ConvergenceError newton_msg), t) /\
    guard_evaluations t = S (Z.to_nat 0).
Proof.
  apply (newton_raphson_late_convergence_discarded
           (fun x => inr (x - 1)) (fun _ => inr 1) 3 default_eps 0 1
           (3 - (3 - 1) / 1)).
  - split; [reflexivity|]. split.
    + exists (3 - (3 - 1) / 1 - 1). split; [reflexivity|]. qcompute.
    + intros j Hj. assert (j = O) by lia. subst j.
      exists 3. split; [reflexivity|].
      exists (3 - 1). split; [reflexivity|]. qcompute.
  - lia.
  - lia.
Defined.

(** Whatever [newton_raphson] raises is what [f] or [df] raised, the
    [ZeroDivisionError] of a zero derivative, or its own
    [ConvergenceError]; in particular it raises no [ValueError] of its
    own. *)
Theorem newton_raphson_raises_only f df x_0 eps max_its e :
  fst (newton_raphson f df x_0 eps max_its) = Raises e ->
  newton_may_raise f df e /\
  (total_callable f -> total_callable df ->
   e = ZeroDivisionError \/ e = ConvergenceError newton_msg).
Proof.
  intros H. unfold newton_raphson in H.
  pose proof (newton_while_may_raise f df eps max_its _ _ _ _ H) as Hm.
  split; [exact Hm|]. intros Tf Tdf.
  destruct Hm as [(y & Hy)|[(y & Hy)|[(He & _)|He]]]; auto.
  - destruct (Tf y) as (v & Hv). congruence.
  - destruct (Tdf y) as (v & Hv). congruence.
Qed.

Lemma newton_raphson_raises_only_witness :
  newton_may_raise (fun x => inr (x * x + 1)) (fun x => inr (2 * x))
    ZeroDivisionError /\
  (total_callable (fun x => inr (x * x + 1)) ->
   total_callable (fun x => inr (2 * x)) ->
   ZeroDivisionError = ZeroDivisionError \/
   ZeroDivisionError = ConvergenceError newton_msg).
Proof.
  apply (newton_raphson_raises_only
           (fun x => inr (x * x + 1)) (fun x => inr (2 * x)) 0 default_eps 20).
  reflexivity.
Defined.

Lemma newton_while_f_calls f df eps max_its fuel :
  forall x count,
    (f_calls (snd (newton_while f df eps max_its fuel x count))
       <= 2 * fuel)%nat.
Proof.
  induction fuel as [|fuel IH]; intros x count;
    [unfold f_calls; simpl; lia|].
  destruct (f x) as [e|v] eqn:Hf.
  { rewrite (newton_while_f_raises f df eps max_its fuel x count e Hf).
    unfold f_calls. simpl. lia. }
  destruct (Qlt_le_dec (Qabs v) eps) as [Hv|Hv].
  { rewrite (newton_while_converged f df eps max_its fuel x count v Hf Hv).
    unfold f_calls. simpl. lia. }
  destruct (df x) as [e|d] eqn:Hdf.
  { rewrite (newton_while_df_raises f df eps max_its fuel x count v e
               Hf Hv Hdf). unfold f_calls. simpl. lia. }
  destruct (Qeq_dec d 0) as [Hd|Hd].
  { rewrite (newton_while_zero_division f df eps max_its fuel x count v d
               Hf Hv Hdf Hd). unfold f_calls. simpl. lia. }
  destruct (Z_gt_le_dec (count + 1) max_its) as [Hc|Hc].
  { rewrite (newton_while_exceeds f df eps max_its fuel x count v d
               Hf Hv Hdf Hd Hc). unfold f_calls. simpl. lia. }
  rewrite (newton_while_continues f df eps max_its fuel x count v d
             Hf Hv Hdf Hd Hc). cbn [snd].
  rewrite f_calls_app. specialize (IH (x - v / d) (count + 1)%Z).
  change (f_calls (update_trace x)) with 2%nat. lia.
Qed.

(** The cost of [newton_raphson]: the guard is evaluated at most
    [max_its + 1] times, [df] is called at most [max_its + 1] times and [f]
    at most twice as often, because each pass evaluates [f(x_0)] for the
    guard and again for the update.  A run that returns after [k] updates
    has called [df] [k] times and [f] [2k + 1] times. *)
Theorem newton_raphson_cost f df x_0 eps max_its :
  (guard_evaluations (snd (newton_raphson f df x_0 eps max_its))
     <= S (Z.to_nat max_its))%nat /\
  (df_calls (snd (newton_raphson f df x_0 eps max_its))
     <= S (Z.to_nat max_its))%nat /\
  (f_calls (snd (newton_raphson f df x_0 eps max_its))
     <= 2 * S (Z.to_nat max_its))%nat /\
  (forall y, fst (newton_raphson f df x_0 eps max_its) = Returns y ->
     f_calls (snd (newton_raphson f df x_0 eps max_its))
       = (2 * df_calls (snd (newton_raphson f df x_0 eps max_its)) + 1)%nat /\
     guard_evaluations (snd (newton_raphson f df x_0 eps max_its))
       = S (df_calls (snd (newton_raphson f df x_0 eps max_its)))).
Proof.
  unfold newton_raphson.
  destruct (newton_while_cost f df eps max_its (S (Z.to_nat max_its)) x_0 0%Z)
    as (Hg & _ & Hdf & Hret).
  pose proof (newton_while_f_calls f df eps max_its (S (Z.to_nat max_its))
                x_0 0%Z) as Hf.
  split; [exact Hg|]. split; [lia|]. split; [exact Hf|]. exact Hret.
Qed.

(** A budget that is zero or negative is accepted and acts as zero: the
    loop still makes one full pass before the budget test can fail. *)
Theorem newton_raphson_negative_budget f df x_0 eps max_its :
  (max_its <= 0)%Z ->
  newton_raphson f df x_0 eps max_its = newton_raphson f df x_0 eps 0.
Proof.
  intros Hm. unfold newton_raphson.
  replace (Z.to_nat max_its) with O by lia. change (Z.to_nat 0) with O.
  destruct (f x_0) as [e|v] eqn:Hf.
  { rewrite !(newton_while_f_raises f df eps _ O x_0 0%Z e Hf). reflexivity. }
  destruct (Qlt_le_dec (Qabs v) eps) as [Hv|Hv].
  { rewrite !(newton_while_converged f df eps _ O x_0 0%Z v Hf Hv).
    reflexivity. }
  destruct (df x_0) as [e|d] eqn:Hdf.
  { rewrite !(newton_while_df_raises f df eps _ O x_0 0%Z v e Hf Hv Hdf).
    reflexivity. }
  destruct (Qeq_dec d 0) as [Hd|Hd].
  { rewrite !(newton_while_zero_division f df eps _ O x_0 0%Z v d
                Hf Hv Hdf Hd). reflexivity. }
  rewrite (newton_while_exceeds f df eps max_its O x_0 0%Z v d Hf Hv Hdf Hd)
    by lia.
  rewrite (newton_while_exceeds f df eps 0 O x_0 0%Z v d Hf Hv Hdf Hd)
    by lia.
  reflexivity.
Qed.

Lemma newton_raphson_negative_budget_witness :
  newton_raphson (fun x => inr (x - 1)) (fun _ => inr 1) 3 default_eps (-7)
  = newton_raphson (fun x => inr (x - 1)) (fun _ => inr 1) 3 default_eps 0.
Proof.
  apply (newton_raphson_negative_budget
           (fun x => inr (x - 1)) (fun _ => inr 1) 3 default_eps (-7)).
  lia.
Defined.

(** Over exact rationals, where the division of the update is exact: on an
    affine function [a * x + b] with its exact derivative [a <> 0], a
    positive tolerance and a budget of at least one iteration,
    [newton_raphson] returns after at most one update, and the value it
    returns is [x_0] itself or the exact root. *)
Theorem newton_raphson_affine_one_step f df a b x_0 eps max_its :
  (forall x, f x = inr (a * x + b)) ->
  (forall x, df x = inr a) ->
  ~ a == 0 -> 0 < eps -> (1 <= max_its)%Z ->
  exists y t,
    newton_raphson f df x_0 eps max_its = (Returns y, t) /\
    (guard_evaluations t <= 2)%nat /\
    converged f eps y /\
    (y = x_0 \/ a * y + b == 0).
Proof.
  intros Hf Hdf Ha Heps Hm. unfold newton_raphson.
  destruct (Z.to_nat max_its) as [|n] eqn:En; [lia|].
  destruct (Qlt_le_dec (Qabs (a * x_0 + b)) eps) as [Hv|Hv].
  - rewrite (newton_while_converged f df eps max_its _ x_0 0%Z _ (Hf x_0) Hv).
    exists x_0. eexists. split; [reflexivity|].
    split; [unfold guard_evaluations; simpl; lia|].
    split; [exists (a * x_0 + b); auto|]. left. reflexivity.
  - rewrite (newton_while_continues f df eps max_its _ x_0 0%Z _ _
               (Hf x_0) Hv (Hdf x_0) Ha) by lia.
    set (y := x_0 - (a * x_0 + b) / a).
    assert (Hroot : a * y + b == 0) by (unfold y; field; exact Ha).
    assert (Hy : Qabs (a * y + b) < eps).
    { rewrite (Qabs_wd _ _ Hroot). exact Heps. }
    rewrite (newton_while_converged f df eps max_its n y (0 + 1)%Z _
               (Hf y) Hy).
    cbn [fst snd]. exists y. eexists. split; [reflexivity|].
    split; [unfold guard_evaluations; simpl; lia|].
    split; [exists (a * y + b); auto|]. right. exact Hroot.
Qed.

Lemma newton_raphson_affine_one_step_witness :
  exists y t,
    newton_raphson (fun x => inr (2 * x + -6)) (fun _ => inr 2) 10
      default_eps default_max_its = (Returns y, t) /\
    (guard_evaluations t <= 2)%nat /\
    converged (fun x => inr (2 * x + -6)) default_eps y /\
    (y = 10 \/ 2 * y + -6 == 0).
Proof.
  apply (newton_raphson_affine_one_step
           (fun x => inr (2 * x + -6)) (fun _ => inr 2) 2 (-6) 10
           default_eps default_max_its).
  - intros x. reflexivity.
  - intros x. reflexivity.
  - qcompute.
  - qcompute.
  - unfold default_max_its. lia.
Defined.

(** ** bisection *)

(** Every call of [bisection] starts with the two end evaluations; on a
    sign-changing bracket the loop phase follows. *)
Lemma bisection_cases f x_0 x_1 eps max_its :
  (exists e, f x_0 = inl e /\
     bisection f x_0 x_1 eps max_its = (Raises e, [Call_f x_0])) \/
  (exists a e, f x_0 = inr a /\ f x_1 = inl e /\
     bisection f x_0 x_1 eps max_its = (Raises e, [Call_f x_0; Call_f x_1])) \/
  (exists a b, f x_0 = inr a /\ f x_1 = inr b /\ 0 <= a * b /\
     bisection f x_0 x_1 eps max_its
       = (Raises (ValueError bracket_msg), [Call_f x_0; Call_f x_1])) \/
  (exists a b, f x_0 = inr a /\ f x_1 = inr b /\ opposite_sign a b /\
     bisection f x_0 x_1 eps max_its
       = (fst (st <- bisection_init f x_0 x_1 a ;;
               bisection_while f eps max_its (S (Z.to_nat max_its)) st),
          [Call_f x_0; Call_f x_1] ++
          snd (st <- bisection_init f x_0 x_1 a ;;
               bisection_while f eps max_its (S (Z.to_nat max_its)) st))).
Proof.
  destruct (f x_0) as [e|a] eqn:Ha.
  { left. exists e. split; [reflexivity|].
    unfold bisection. unfold bind at 1, call at 1. rewrite Ha. reflexivity. }
  destruct (f x_1) as [e|b] eqn:Hb.
  { right. left. exists a, e. split; [reflexivity|]. split; [reflexivity|].
    unfold bisection. unfold bind at 1, call at 1. rewrite Ha.
    unfold bind at 1, call at 1. rewrite Hb. reflexivity. }
  destruct (Qlt_le_dec (a * b) 0) as [Hab|Hab].
  - right. right. right. exists a, b.
    split; [reflexivity|]. split; [reflexivity|].
    split; [apply opposite_sign_product; exact Hab|].
    apply (bisection_accepts f x_0 x_1 eps max_its a b Ha Hb Hab).
  - right. right. left. exists a, b.
    split; [reflexivity|]. split; [reflexivity|]. split; [exact Hab|].
    apply (bisection_rejects f x_0 x_1 eps max_its a b Ha Hb Hab).
Qed.

Lemma bisection_while_negative_budget f eps max_its st :
  (max_its <= 0)%Z -> st_count st = 0%Z ->
  bisection_while f eps max_its 1 st = bisection_while f eps 0 1 st.
Proof.
  intros Hm Hc.
  destruct (Qlt_le_dec (Qabs (st_f_test st)) eps) as [Hg|Hg].
  - rewrite !(bisection_while_exit f eps _ O st Hg). reflexivity.
  - assert (Hbody : bisection_body f max_its st = bisection_body f 0 st).
    { unfold bisection_body, bind, call. rewrite Hc.
      match goal with |- context [f ?y] => destruct (f y) as [e|v] end;
        [reflexivity|].
      replace (0 + 1 >? max_its)%Z with true
        by (symmetry; apply Z.gtb_gt; lia).
      reflexivity. }
    pose proof (bisection_body_outcome f 0 st) as (_ & Hout).
    destruct (fst (bisection_body f 0 st)) as [st'|e|] eqn:E;
      [| |contradiction].
    + exfalso. destruct Hout as (_ & _ & _ & _ & Hc' & Hle). lia.
    + rewrite (bisection_while_raises f eps max_its O st e Hg)
        by (rewrite Hbody; exact E).
      rewrite (bisection_while_raises f eps 0 O st e Hg E).
      rewrite Hbody. reflexivity.
Qed.

Lemma bisection_unfold f x_0 x_1 eps max_its :
  bisection f x_0 x_1 eps max_its
  = match f x_0 with
    | inl e => (Raises e, [Call_f x_0])
    | inr a =>
        match f x_1 with
        | inl e => (Raises e, [Call_f x_0; Call_f x_1])
        | inr b =>
            if Qge_bool (a * b) 0
            then (Raises (ValueError bracket_msg), [Call_f x_0; Call_f x_1])
            else
              (fst (st <- bisection_init f x_0 x_1 a ;;
                    bisection_while f eps max_its (S (Z.to_nat max_its)) st),
               [Call_f x_0; Call_f x_1] ++
               snd (st <- bisection_init f x_0 x_1 a ;;
                    bisection_while f eps max_its (S (Z.to_nat max_its)) st))
        end
    end.
Proof.
  destruct (bisection_cases f x_0 x_1 eps max_its)
    as [(e & He & E)|[(a & e & Ha & He & E)|[(a & b & Ha & Hb & Hab & E)
       |(a & b & Ha & Hb & Hs & E)]]]; rewrite E.
  - rewrite He. reflexivity.
  - rewrite Ha, He. reflexivity.
  - rewrite Ha, Hb. apply Qge_bool_true in Hab. rewrite Hab. reflexivity.
  - rewrite Ha, Hb. apply opposite_sign_product, Qge_bool_false in Hs.
    rewrite Hs. reflexivity.
Qed.

Lemma bisection_init_count f x_0 x_1 a st :
  fst (bisection_init f x_0 x_1 a) = Returns st -> st_count st = 0%Z.
Proof.
  unfold bisection_init.
  destruct (Qlt_bool a 0); unfold bind, call;
    match goal with |- context [f ?y] => destruct (f y) as [e|v] end;
    simpl; intros H; try discriminate; injection H as <-; reflexivity.
Qed.

(** A budget that is zero or negative is accepted by [bisection] and acts
    as zero: one pass of the loop is made before the budget test fails. *)
Theorem bisection_negative_budget f x_0 x_1 eps max_its :
  (max_its <= 0)%Z ->
  bisection f x_0 x_1 eps max_its = bisection f x_0 x_1 eps 0.
Proof.
  intros Hm. rewrite !bisection_unfold.
  destruct (f x_0) as [e|a]; [reflexivity|].
  destruct (f x_1) as [e|b]; [reflexivity|].
  destruct (Qge_bool (a * b) 0); [reflexivity|].
  replace (Z.to_nat max_its) with O by lia. change (Z.to_nat 0) with O.
  pose proof (bisection_init_count f x_0 x_1 a) as Hc.
  unfold bind.
  destruct (bisection_init f x_0 x_1 a) as [[st|e|] t]; try reflexivity.
  rewrite (bisection_while_negative_budget f eps max_its st Hm
             (Hc st eq_refl)).
  reflexivity.
Qed.

Lemma bisection_negative_budget_witness :
  bisection (fun x => inr x) (-1) 3 default_eps (-2)
  = bisection (fun x => inr x) (-1) 3 default_eps 0.
Proof.
  apply (bisection_negative_budget (fun x => inr x) (-1) 3 default_eps (-2)).
  lia.
Defined.



(** Over exact rationals, where the midpoint is exact: each completed
    iteration halves the bracket: in the state reached after
    [count] iterations the width is the initial [abs(x_0 - x_1)] divided by
    [2 ^ count]. *)
Theorem bisection_width_halves f x_0 x_1 eps max_its a b st0 st :
  f x_0 = inr a -> f x_1 = inr b -> opposite_sign a b ->
  fst (bisection_init f x_0 x_1 a) = Returns st0 ->
  bisection_reaches f eps max_its st0 st ->
  (0 <= st_count st)%Z /\
  width st * 2 ^ st_count st == Qabs (x_0 - x_1) /\
  (forall st', bisection_step f eps max_its st st' ->
     width st' == width st * (1 # 2)).
Proof.
  intros Ha Hb Hsign Hinit Hreach.
  destruct (bisection_init_outcome f x_0 x_1 a b Ha Hb Hsign) as (_ & H0).
  rewrite Hinit in H0. destruct H0 as (Hor & Hmt & Hin & Hc0 & Hends).
  destruct (bisection_reaches_width f eps max_its st0 st Hmt Hor Hc0 Hreach)
    as (Hpos & Hw).
  split; [exact Hpos|]. split.
  - rewrite Hw. unfold width.
    destruct Hends as [[-> ->]|[-> ->]]; [reflexivity|].
    rewrite Qabs_Qminus. reflexivity.
  - intros st' Hstep.
    destruct (bisection_reaches_invariant f eps max_its _ _ st0 st
                Hor Hmt Hin Hreach) as (_ & Hmt' & _).
    apply (bisection_step_halves f eps max_its st st' Hmt' Hstep).
Qed.

Lemma bisection_width_halves_witness :
  (0 <= st_count (mk_state (2 # 2) (-1) (0 # 4) (0 # 4) 1))%Z /\
  width (mk_state (2 # 2) (-1) (0 # 4) (0 # 4) 1)
    * 2 ^ st_count (mk_state (2 # 2) (-1) (0 # 4) (0 # 4) 1)
    == Qabs (-1 - 3) /\
  (forall st',
     bisection_step (fun x => inr x) default_eps 20
       (mk_state (2 # 2) (-1) (0 # 4) (0 # 4) 1) st' ->
     width st' == width (mk_state (2 # 2) (-1) (0 # 4) (0 # 4) 1) * (1 # 2)).
Proof.
  apply (bisection_width_halves (fun x => inr x) (-1) 3 default_eps 20
           (-1) 3 (mk_state 3 (-1) (2 # 2) (2 # 2) 0)).
  - reflexivity.
  - reflexivity.
  - left. split; reflexivity.
  - reflexivity.
  - apply (rtn1_trans _ _ _ (mk_state 3 (-1) (2 # 2) (2 # 2) 0)).
    + split; reflexivity.
    + apply rtn1_refl.
Defined.

(** The loop phase on a sign-changing bracket: [f] raises at the first
    midpoint, or the loop runs from the oriented initial state. *)
Lemma bisection_loop_phase f x_0 x_1 eps max_its a b :
  f x_0 = inr a -> f x_1 = inr b -> opposite_sign a b ->
  (exists e y, f y = inl e /\
     (st <- bisection_init f x_0 x_1 a ;;
      bisection_while f eps max_its (S (Z.to_nat max_its)) st)
     = (Raises e, [Call_f y])) \/
  (exists st,
     fst (bisection_init f x_0 x_1 a) = Returns st /\
     oriented f st /\ midpoint_tested f st /\
     within (Qmin x_0 x_1) (Qmax x_0 x_1) st /\
     st_count st = 0%Z /\ width st = Qabs (x_0 - x_1) /\
     (st <- bisection_init f x_0 x_1 a ;;
      bisection_while f eps max_its (S (Z.to_nat max_its)) st)
     = (fst (bisection_while f eps max_its (S (Z.to_nat max_its)) st),
        [Call_f (st_x_temp st)] ++
        snd (bisection_while f eps max_its (S (Z.to_nat max_its)) st))).
Proof.
  intros Ha Hb Hsign.
  destruct (bisection_init_outcome f x_0 x_1 a b Ha Hb Hsign) as (_ & Hout).
  assert (Hshape :
    (exists e y, f y = inl e /\
       bisection_init f x_0 x_1 a = (Raises e, [Call_f y])) \/
    (exists st, bisection_init f x_0 x_1 a
                = (Returns st, [Call_f (st_x_temp st)]))).
  { unfold bisection_init.
    destruct (Qlt_bool a 0); unfold bind, call;
      match goal with |- context [f ?y] => destruct (f y) as [e|v] eqn:E end;
      simpl;
      [ left; exists e; eexists; split; [exact E|reflexivity]
      | right; eexists (mk_state _ _ _ _ _); reflexivity
      | left; exists e; eexists; split; [exact E|reflexivity]
      | right; eexists (mk_state _ _ _ _ _); reflexivity ]. }
  destruct Hshape as [(e & y & Hy & E)|(st & E)].
  - left. exists e, y. split; [exact Hy|]. rewrite E. reflexivity.
  - right. exists st. rewrite E in *. cbn [fst] in Hout.
    destruct Hout as (Hor & Hmt & Hin & Hc & Hends).
    repeat (split; [first [reflexivity | assumption]|]).
    split.
    + unfold width. destruct Hends as [[-> ->]|[-> ->]]; [reflexivity|].
      apply Qabs_Qminus.
    + unfold bind.
      destruct (bisection_while f eps max_its (S (Z.to_nat max_its)) st).
      reflexivity.
Qed.

(** Whatever [bisection] raises is what [f] raised, the invalid-bracket
    [ValueError], or its own [ConvergenceError]: no division takes place
    that could fault, and with an [f] that returns everywhere only the last
    two are left. *)
Theorem bisection_raises_only f x_0 x_1 eps max_its e :
  fst (bisection f x_0 x_1 eps max_its) = Raises e ->
  bisection_may_raise f e /\
  (total_callable f ->
   e = ValueError bracket_msg \/ e = ConvergenceError bisection_msg).
Proof.
  intros H.
  assert (Hm : bisection_may_raise f e).
  { unfold bisection_may_raise.
    destruct (bisection_cases f x_0 x_1 eps max_its)
      as [(e' & He & E)|[(a & e' & Ha & He & E)|[(a & b & Ha & Hb & Hab & E)
         |(a & b & Ha & Hb & Hs & E)]]]; rewrite E in H; cbn [fst] in H.
    - injection H as <-. left. eauto.
    - injection H as <-. left. eauto.
    - injection H as <-. right. left. reflexivity.
    - destruct (bisection_loop_outcome f x_0 x_1 eps max_its a b Ha Hb Hs)
        as (_ & Hout).
      rewrite H in Hout. destruct Hout as [Hy| ->]; auto. }
  split; [exact Hm|]. intros Tf.
  destruct Hm as [(y & Hy)|Hm]; [|exact Hm].
  destruct (Tf y) as (v & Hv). congruence.
Qed.

Lemma bisection_raises_only_witness :
  bisection_may_raise (fun x => inr (x - 1)) (ValueError bracket_msg) /\
  (total_callable (fun x => inr (x - 1)) ->
   ValueError bracket_msg = ValueError bracket_msg \/
   ValueError bracket_msg = ConvergenceError bisection_msg).
Proof.
  apply (bisection_raises_only (fun x => inr (x - 1)) 2 3 default_eps 20).
  reflexivity.
Defined.

(** When [bisection] raises its [ConvergenceError] the whole budget has been
    spent: the guard was evaluated [max_its + 1] times and [f] was called
    [max_its + 4] times (the two ends, the first midpoint and one midpoint
    per pass), the last of these values never being tested. *)
Theorem bisection_budget_spent f x_0 x_1 eps max_its msg t :
  never_raises_ConvergenceError f ->
  bisection f x_0 x_1 eps max_its = (Raises (ConvergenceError msg), t) ->
  msg = bisection_msg /\
  guard_evaluations t = S (Z.to_nat max_its) /\
  f_calls t = (Z.to_nat max_its + 4)%nat.
Proof.
  intros Qf H.
  destruct (bisection_cases f x_0 x_1 eps max_its)
    as [(e & He & E)|[(a & e & Ha & He & E)|[(a & b & Ha & Hb & Hab & E)
       |(a & b & Ha & Hb & Hs & E)]]]; rewrite E in H.
  - injection H as -> _. exfalso. apply (Qf _ _ He).
  - injection H as -> _. exfalso. apply (Qf _ _ He).
  - discriminate.
  - destruct (bisection_loop_phase f x_0 x_1 eps max_its a b Ha Hb Hs)
      as [(e & y & Hy & E')|(st & _ & _ & _ & _ & Hc & _ & E')];
      rewrite E' in H; cbn [fst snd] in H.
    + injection H as -> _. exfalso. apply (Qf _ _ Hy).
    + pose proof (f_equal fst H) as Hfst. pose proof (f_equal snd H) as Ht.
      cbn [fst snd] in Hfst, Ht. subst t. clear H.
      destruct (bisection_while_budget_spent f eps max_its _ Qf st msg Hfst)
        as (Hmsg & Hg).
      pose proof (bisection_while_cost f eps max_its (S (Z.to_nat max_its)) st)
        as (_ & Hm).
      rewrite Hfst in Hm. rewrite Hc, Z.sub_0_r in Hg.
      split; [exact Hmsg|].
      rewrite !guard_evaluations_app, !f_calls_app, <- Hm, Hg.
      split; [reflexivity|].
      change (f_calls [Call_f x_0; Call_f x_1]) with 2%nat.
      change (f_calls [Call_f (st_x_temp st)]) with 1%nat. lia.
Qed.

Lemma bisection_budget_spent_witness :
  bisection_msg = bisection_msg /\
  guard_evaluations
    [Call_f (-1); Call_f 3; Call_f (2 # 2); Loop_test true; Call_f (0 # 4)]
    = S (Z.to_nat 0) /\
  f_calls
    [Call_f (-1); Call_f 3; Call_f (2 # 2); Loop_test true; Call_f (0 # 4)]
    = (Z.to_nat 0 + 4)%nat.
Proof.
  apply (bisection_budget_spent (fun x => inr x) (-1) 3 default_eps 0).
  - intros x msg. discriminate.
  - reflexivity.
Defined.

(** The cost of [bisection]: the guard is evaluated at most [max_its + 1]
    times and [f] is called at most [max_its + 4] times; a call that returns
    has evaluated [f] once per guard test plus the two ends. *)
Theorem bisection_cost f x_0 x_1 eps max_its :
  (guard_evaluations (snd (bisection f x_0 x_1 eps max_its))
     <= S (Z.to_nat max_its))%nat /\
  (f_calls (snd (bisection f x_0 x_1 eps max_its))
     <= Z.to_nat max_its + 4)%nat /\
  (forall x, fst (bisection f x_0 x_1 eps max_its) = Returns x ->
     f_calls (snd (bisection f x_0 x_1 eps max_its))
       = (guard_evaluations (snd (bisection f x_0 x_1 eps max_its)) + 2)%nat).
Proof.
  destruct (bisection_cases f x_0 x_1 eps max_its)
    as [(e & He & E)|[(a & e & Ha & He & E)|[(a & b & Ha & Hb & Hab & E)
       |(a & b & Ha & Hb & Hs & E)]]]; rewrite E; cbn [fst snd];
    try (unfold guard_evaluations, f_calls; simpl;
         repeat split; intros; solve [lia | discriminate]).
  destruct (bisection_loop_phase f x_0 x_1 eps max_its a b Ha Hb Hs)
    as [(e & y & Hy & E')|(st & _ & _ & _ & _ & Hc & _ & E')];
    rewrite E'; cbn [fst snd].
  - unfold guard_evaluations, f_calls; simpl.
    repeat split; intros; solve [lia | discriminate].
  - pose proof (bisection_while_cost f eps max_its (S (Z.to_nat max_its)) st)
      as (Hle & Hm).
    rewrite !guard_evaluations_app, !f_calls_app.
    change (f_calls [Call_f x_0; Call_f x_1]) with 2%nat.
    change (f_calls [Call_f (st_x_temp st)]) with 1%nat.
    change (guard_evaluations [Call_f x_0; Call_f x_1]) with O.
    change (guard_evaluations [Call_f (st_x_temp st)]) with O.
    split; [lia|]. split.
    + destruct (fst (bisection_while f eps max_its (S (Z.to_nat max_its)) st));
        lia.
    + intros x Hx. rewrite Hx in Hm. lia.
Qed.

Lemma bisection_lipschitz_returns f L x_0 x_1 eps max_its a b :
  total_callable f -> lipschitz f L ->
  f x_0 = inr a -> f x_1 = inr b -> opposite_sign a b ->
  (0 <= max_its)%Z ->
  L * Qabs (x_0 - x_1) < eps * 2 ^ (max_its + 1) ->
  exists x, fst (bisection f x_0 x_1 eps max_its) = Returns x.
Proof.
  intros Tf Hlip Ha Hb Hs Hm Hbudget.
  assert (Hab : a * b < 0) by (apply opposite_sign_product; exact Hs).
  rewrite (bisection_accepts f x_0 x_1 eps max_its a b Ha Hb Hab). cbn [fst].
  destruct (bisection_loop_phase f x_0 x_1 eps max_its a b Ha Hb Hs)
    as [(e & y & Hy & _)|(st & _ & Hor & Hmt & _ & Hc & Hw & E)].
  - exfalso. destruct (Tf y) as (v & Hv). congruence.
  - rewrite E. cbn [fst].
    apply (bisection_while_converges f eps max_its L _ Tf Hlip st
             (L * Qabs (x_0 - x_1))); try assumption.
    + lia.
    + rewrite Hw. apply Qle_refl.
    + rewrite Hc, Z.sub_0_r. exact Hbudget.
    + rewrite Hc, Z.sub_0_r. lia.
Qed.

(** Over exact rationals: guaranteed convergence, for an [f] that returns
    everywhere and whose
    slope is bounded by [L], on a bracket with values of strictly opposite
    sign, [bisection] returns as soon as the budget satisfies
    [L * abs(x_0 - x_1) < eps * 2 ^ (max_its + 1)]; the value returned meets
    the tolerance and lies in the bracket. *)
Theorem bisection_converges_lipschitz f L x_0 x_1 eps max_its a b :
  total_callable f -> lipschitz f L ->
  f x_0 = inr a -> f x_1 = inr b -> opposite_sign a b ->
  (0 <= max_its)%Z ->
  L * Qabs (x_0 - x_1) < eps * 2 ^ (max_its + 1) ->
  exists x,
    fst (bisection f x_0 x_1 eps max_its) = Returns x /\
    converged f eps x /\ Qmin x_0 x_1 <= x /\ x <= Qmax x_0 x_1.
Proof.
  intros Tf Hlip Ha Hb Hs Hm Hbudget.
  destruct (bisection_lipschitz_returns f L x_0 x_1 eps max_its a b
              Tf Hlip Ha Hb Hs Hm Hbudget) as (x & Hx).
  exists x. split; [exact Hx|].
  assert (Hab : a * b < 0) by (apply opposite_sign_product; exact Hs).
  rewrite (bisection_accepts f x_0 x_1 eps max_its a b Ha Hb Hab) in Hx.
  cbn [fst] in Hx.
  destruct (bisection_loop_outcome f x_0 x_1 eps max_its a b Ha Hb Hs)
    as (_ & Hout).
  rewrite Hx in Hout. exact Hout.
Qed.

Lemma affine_lipschitz (c d : Q) :
  lipschitz (fun x => inr (c * x + d)) (Qabs c).
Proof.
  intros x y u v Hu Hv. injection Hu as <-. injection Hv as <-.
  rewrite <- Qabs_Qmult. apply Qle_lteq. right. apply Qabs_wd. ring.
Qed.

Lemma bisection_converges_lipschitz_witness :
  exists x,
    fst (bisection (fun x => inr (1 * x + 0)) (-1) 3 (1 # 2) 3) = Returns x /\
    converged (fun x => inr (1 * x + 0)) (1 # 2) x /\
    Qmin (-1) 3 <= x /\ x <= Qmax (-1) 3.
Proof.
  apply (bisection_converges_lipschitz
           (fun x => inr (1 * x + 0)) (Qabs 1) (-1) 3 (1 # 2) 3
           (1 * -1 + 0) (1 * 3 + 0)).
  - intros x. exists (1 * x + 0). reflexivity.
  - apply affine_lipschitz.
  - reflexivity.
  - reflexivity.
  - left. split; reflexivity.
  - lia.
  - qcompute.
Defined.

(** ** solve *)

Lemma bisection_returns_sound f x_0 x_1 eps max_its x :
  fst (bisection f x_0 x_1 eps max_its) = Returns x ->
  converged f eps x /\ Qmin x_0 x_1 <= x /\ x <= Qmax x_0 x_1.
Proof.
  intros H.
  destruct (bisection_cases f x_0 x_1 eps max_its)
    as [(e & He & E)|[(a & e & Ha & He & E)|[(a & b & Ha & Hb & Hab & E)
       |(a & b & Ha & Hb & Hs & E)]]]; rewrite E in H; cbn [fst] in H;
    try discriminate.
  destruct (bisection_loop_outcome f x_0 x_1 eps max_its a b Ha Hb Hs)
    as (_ & Hout).
  rewrite H in Hout. exact Hout.
Qed.

(** The outcome of [solve], by the outcome of the Newton-Raphson call. *)
Lemma solve_cases f df x_0 x_1 eps max_its_n max_its_b :
  (exists x, fst (newton_raphson f df x_0 eps max_its_n) = Returns x /\
     solve f df x_0 x_1 eps max_its_n max_its_b
       = newton_raphson f df x_0 eps max_its_n) \/
  (exists e, fst (newton_raphson f df x_0 eps max_its_n) = Raises e /\
     (forall msg, e <> ConvergenceError msg) /\
     solve f df x_0 x_1 eps max_its_n max_its_b
       = newton_raphson f df x_0 eps max_its_n) \/
  (exists msg, fst (newton_raphson f df x_0 eps max_its_n)
                 = Raises (ConvergenceError msg) /\
     solve f df x_0 x_1 eps max_its_n max_its_b
       = (fst (bisection f x_0 x_1 eps max_its_b),
          snd (newton_raphson f df x_0 eps max_its_n)
          ++ snd (bisection f x_0 x_1 eps max_its_b))).
Proof.
  rewrite solve_unfold. unfold try_except_ConvergenceError.
  pose proof (newton_raphson_total f df x_0 eps max_its_n) as Hn.
  destruct (newton_raphson f df x_0 eps max_its_n) as [[x|e|] t];
    cbn [fst snd] in *; [left; eauto | | contradiction].
  right. destruct e as [msg| | |].
  - right. exists msg. split; [reflexivity|].
    destruct (bisection f x_0 x_1 eps max_its_b). reflexivity.
  - left. eexists. split; [reflexivity|]. split; [discriminate|reflexivity].
  - left. eexists. split; [reflexivity|]. split; [discriminate|reflexivity].
  - left. eexists. split; [reflexivity|]. split; [discriminate|reflexivity].
Qed.

(** Over exact rationals: whatever [solve] returns meets the tolerance, on
    either path. *)
Theorem solve_returns_converged f df x_0 x_1 eps max_its_n max_its_b x :
  fst (solve f df x_0 x_1 eps max_its_n max_its_b) = Returns x ->
  converged f eps x.
Proof.
  intros H.
  destruct (solve_cases f df x_0 x_1 eps max_its_n max_its_b)
    as [(y & Hy & E)|[(e & He & _ & E)|(msg & Hmsg & E)]];
    rewrite E in H.
  - unfold newton_raphson in H.
    destruct (newton_while f df eps max_its_n (S (Z.to_nat max_its_n))
                x_0 0%Z) as [o t] eqn:En.
    cbn [fst] in H. subst o.
    destruct (newton_while_returns f df eps max_its_n _ _ _ _ _ En)
      as (k & (_ & Hc & _) & _).
    exact Hc.
  - congruence.
  - cbn [fst] in H.
    apply (bisection_returns_sound f x_0 x_1 eps max_its_b x H).
Qed.

Lemma solve_returns_converged_witness :
  converged (fun x => inr x) default_eps (0 # 2).
Proof.
  apply (solve_returns_converged
           (fun x => inr x) (fun _ => inr 4) 1 (-1) default_eps 0 3).
  reflexivity.
Defined.

Lemma bisection_convergence_error_message f x_0 x_1 eps max_its msg :
  never_raises_ConvergenceError f ->
  fst (bisection f x_0 x_1 eps max_its) = Raises (ConvergenceError msg) ->
  msg = bisection_msg.
Proof.
  intros Qf H.
  destruct (bisection_cases f x_0 x_1 eps max_its)
    as [(e & He & E)|[(a & e & Ha & He & E)|[(a & b & Ha & Hb & Hab & E)
       |(a & b & Ha & Hb & Hs & E)]]]; rewrite E in H; cbn [fst] in H.
  - injection H as ->. exfalso. apply (Qf _ _ He).
  - injection H as ->. exfalso. apply (Qf _ _ He).
  - discriminate.
  - destruct (bisection_loop_outcome f x_0 x_1 eps max_its a b Ha Hb Hs)
      as (_ & Hout).
    rewrite H in Hout. destruct Hout as [(y & Hy)|Hmsg].
    + exfalso. apply (Qf _ _ Hy).
    + injection Hmsg as ->. reflexivity.
Qed.

(** A [ConvergenceError] that leaves [solve] is always the one of
    [bisection], raised after Newton-Raphson had failed as well: the
    Newton-Raphson failure itself never reaches the caller. *)
Theorem solve_convergence_error_from_bisection
  f df x_0 x_1 eps max_its_n max_its_b msg :
  never_raises_ConvergenceError f ->
  fst (solve f df x_0 x_1 eps max_its_n max_its_b)
    = Raises (ConvergenceError msg) ->
  msg = bisection_msg /\
  (exists m, fst (newton_raphson f df x_0 eps max_its_n)
               = Raises (ConvergenceError m)) /\
  fst (bisection f x_0 x_1 eps max_its_b) = Raises (ConvergenceError msg).
Proof.
  intros Qf H.
  destruct (solve_cases f df x_0 x_1 eps max_its_n max_its_b)
    as [(y & Hy & E)|[(e & He & Hne & E)|(m & Hm & E)]];
    rewrite E in H.
  - congruence.
  - exfalso. rewrite He in H. injection H as ->. apply (Hne msg eq_refl).
  - cbn [fst] in H.
    destruct (bisection f x_0 x_1 eps max_its_b) as [o t] eqn:Eb.
    cbn [fst] in H. subst o.
    pose proof (bisection_convergence_error_message f x_0 x_1 eps max_its_b
                  msg Qf) as Hmsg.
    rewrite Eb in Hmsg. specialize (Hmsg eq_refl).
    subst msg. split; [reflexivity|]. split; [eauto|reflexivity].
Qed.

Lemma solve_convergence_error_from_bisection_witness :
  bisection_msg = bisection_msg /\
  (exists m,
     fst (newton_raphson (fun x => inr x) (fun _ => inr 4) 3 default_eps 0)
       = Raises (ConvergenceError m)) /\
  fst (bisection (fun x => inr x) 3 (-1) default_eps 0)
    = Raises (ConvergenceError bisection_msg).
Proof.
  apply (solve_convergence_error_from_bisection
           (fun x => inr x) (fun _ => inr 4) 3 (-1) default_eps 0 0).
  - intros x msg. discriminate.
  - reflexivity.
Defined.

(** Over exact rationals: guaranteed success of the composition, when
    neither callable can raise,
    [df] is nowhere zero, and the bisection budget outruns the halving on a
    sign-changing bracket of a function of slope at most [L], [solve]
    returns a value that meets the tolerance, whichever path it takes. *)
Theorem solve_succeeds f df L x_0 x_1 eps max_its_n max_its_b a b :
  total_callable f -> total_callable df ->
  (forall x d, df x = inr d -> ~ d == 0) ->
  lipschitz f L ->
  f x_0 = inr a -> f x_1 = inr b -> opposite_sign a b ->
  (0 <= max_its_b)%Z ->
  L * Qabs (x_0 - x_1) < eps * 2 ^ (max_its_b + 1) ->
  exists x,
    fst (solve f df x_0 x_1 eps max_its_n max_its_b) = Returns x /\
    converged f eps x.
Proof.
  intros Tf Tdf Hnz Hlip Ha Hb Hs Hm Hbudget.
  destruct (solve_cases f df x_0 x_1 eps max_its_n max_its_b)
    as [(y & Hy & E)|[(e & He & Hne & E)|(msg & Hmsg & E)]]; rewrite E.
  - exists y. split; [exact Hy|].
    unfold newton_raphson in Hy.
    destruct (newton_while f df eps max_its_n (S (Z.to_nat max_its_n))
                x_0 0%Z) as [o t] eqn:En.
    cbn [fst] in Hy. subst o.
    destruct (newton_while_returns f df eps max_its_n _ _ _ _ _ En)
      as (k & (_ & Hc & _) & _).
    exact Hc.
  - exfalso. unfold newton_raphson in He.
    destruct (newton_while_may_raise f df eps max_its_n _ _ _ _ He)
      as [(y & Hy)|[(y & Hy)|[(_ & y & d & Hd & Hz)|Hce]]].
    + destruct (Tf y) as (v & Hv). congruence.
    + destruct (Tdf y) as (v & Hv). congruence.
    + apply (Hnz y d Hd Hz).
    + apply (Hne newton_msg Hce).
  - cbn [fst].
    destruct (bisection_lipschitz_returns f L x_0 x_1 eps max_its_b a b
                Tf Hlip Ha Hb Hs Hm Hbudget) as (x & Hx).
    exists x. split; [exact Hx|].
    apply (bisection_returns_sound f x_0 x_1 eps max_its_b x Hx).
Qed.

Lemma solve_succeeds_witness :
  exists x,
    fst (solve (fun x => inr (1 * x + 0)) (fun _ => inr 4) 3 (-1) (1 # 2) 0 3)
      = Returns x /\
    converged (fun x => inr (1 * x + 0)) (1 # 2) x.
Proof.
  apply (solve_succeeds
           (fun x => inr (1 * x + 0)) (fun _ => inr 4) (Qabs 1) 3 (-1)
           (1 # 2) 0 3 (1 * 3 + 0) (1 * -1 + 0)).
  - intros x. exists (1 * x + 0). reflexivity.
  - intros x. exists 4. reflexivity.
  - intros x d Hd. injection Hd as <-. qcompute.
  - apply affine_lipschitz.
  - reflexivity.
  - reflexivity.
  - right. split; reflexivity.
  - lia.
  - qcompute.
Defined.

Lemma bisection_while_no_df f eps max_its fuel :
  forall st, df_calls (snd (bisection_while f eps max_its fuel st)) = O.
Proof.
  induction fuel as [|fuel IH]; intros st; [reflexivity|].
  destruct (Qlt_le_dec (Qabs (st_f_test st)) eps) as [Hg|Hg].
  - rewrite (bisection_while_exit f eps max_its fuel st Hg). reflexivity.
  - assert (Hb : df_calls (snd (bisection_body f max_its st)) = O).
    { unfold bisection_body, bind, call.
      match goal with |- context [f ?y] => destruct (f y) as [e|v] end;
        [reflexivity|].
      destruct (st_count st + 1 >? max_its)%Z; reflexivity. }
    pose proof (bisection_body_outcome f max_its st) as (_ & Hout).
    destruct (fst (bisection_body f max_its st)) as [st'|e|] eqn:Hbody;
      [| |contradiction].
    + assert (Hstep : bisection_step f eps max_its st st').
      { split; [apply Qge_bool_true; exact Hg | exact Hbody]. }
      rewrite (bisection_while_step f eps max_its fuel st st' Hstep).
      cbn [snd].
      change (Loop_test true :: snd (bisection_body f max_its st)
                ++ snd (bisection_while f eps max_its fuel st'))
        with ([Loop_test true] ++ snd (bisection_body f max_its st)
                ++ snd (bisection_while f eps max_its fuel st')).
      rewrite !df_calls_app, Hb, IH. reflexivity.
    + rewrite (bisection_while_raises f eps max_its fuel st e Hg Hbody).
      cbn [snd].
      change (Loop_test true :: snd (bisection_body f max_its st))
        with ([Loop_test true] ++ snd (bisection_body f max_its st)).
      rewrite df_calls_app, Hb. reflexivity.
Qed.

Lemma bisection_trace_counts f x_0 x_1 eps max_its :
  (f_calls (snd (bisection f x_0 x_1 eps max_its))
     <= Z.to_nat max_its + 4)%nat /\
  df_calls (snd (bisection f x_0 x_1 eps max_its)) = O.
Proof.
  destruct (bisection_cases f x_0 x_1 eps max_its)
    as [(e & He & E)|[(a & e & Ha & He & E)|[(a & b & Ha & Hb & Hab & E)
       |(a & b & Ha & Hb & Hs & E)]]]; rewrite E; cbn [fst snd];
    try (unfold df_calls, f_calls; simpl; split; [lia|reflexivity]).
  destruct (bisection_loop_phase f x_0 x_1 eps max_its a b Ha Hb Hs)
    as [(e & y & Hy & E')|(st & _ & _ & _ & _ & Hc & _ & E')];
    rewrite E'; cbn [fst snd].
  - unfold df_calls, f_calls; simpl; split; [lia|reflexivity].
  - pose proof (bisection_while_cost f eps max_its (S (Z.to_nat max_its)) st)
      as (Hle & Hm).
    rewrite !f_calls_app, !df_calls_app, bisection_while_no_df.
    change (f_calls [Call_f x_0; Call_f x_1]) with 2%nat.
    change (f_calls [Call_f (st_x_temp st)]) with 1%nat.
    split; [|reflexivity].
    destruct (fst (bisection_while f eps max_its (S (Z.to_nat max_its)) st));
      lia.
Qed.

(** The cost of [solve]: [df] is called at most [max_its_n + 1] times, all
    of them by Newton-Raphson, and [f] at most
    [2 * (max_its_n + 1) + max_its_b + 4] times. *)
Theorem solve_cost f df x_0 x_1 eps max_its_n max_its_b :
  (df_calls (snd (solve f df x_0 x_1 eps max_its_n max_its_b))
     <= S (Z.to_nat max_its_n))%nat /\
  (f_calls (snd (solve f df x_0 x_1 eps max_its_n max_its_b))
     <= 2 * S (Z.to_nat max_its_n) + (Z.to_nat max_its_b + 4))%nat.
Proof.
  assert (Hn : (df_calls (snd (newton_raphson f df x_0 eps max_its_n))
                  <= S (Z.to_nat max_its_n))%nat /\
               (f_calls (snd (newton_raphson f df x_0 eps max_its_n))
                  <= 2 * S (Z.to_nat max_its_n))%nat).
  { unfold newton_raphson.
    destruct (newton_while_cost f df eps max_its_n (S (Z.to_nat max_its_n))
                x_0 0%Z) as (Hg & _ & Hdf & _).
    split; [lia|]. apply newton_while_f_calls. }
  destruct Hn as (Hdf & Hf).
  destruct (bisection_trace_counts f x_0 x_1 eps max_its_b) as (Hbf & Hbdf).
  destruct (solve_cases f df x_0 x_1 eps max_its_n max_its_b)
    as [(y & _ & E)|[(e & _ & _ & E)|(msg & _ & E)]]; rewrite E.
  - split; lia.
  - split; lia.
  - cbn [snd]. rewrite f_calls_app, df_calls_app, Hbdf. split; lia.
Qed.


(** * Properties over the arithmetic of the arguments *)

Module ScalarFacts.

Import Scalar.
Local Open Scope scalar_scope.
#[local] Set Warnings "-inexact-float".

(** ** The order of binary64 *)

Lemma SFcompare_antisym (a b : spec_float) :
  SFcompare b a = option_map CompOpp (SFcompare a b).
Proof.
  destruct a as [sa|sa| |sa ma ea], b as [sb|sb| |sb mb eb]; simpl;
    try reflexivity;
    try (destruct sa; reflexivity);
    try (destruct sb; reflexivity);
    try (destruct sa, sb; reflexivity).
  destruct sa, sb; simpl; try reflexivity;
    rewrite (Z.compare_antisym ea eb);
    destruct (ea ?= eb)%Z; simpl; try reflexivity;
    change (Pos.compare_cont Eq mb ma) with (Pos.compare mb ma);
    change (Pos.compare_cont Eq ma mb) with (Pos.compare ma mb);
    rewrite (Pos.compare_antisym ma mb); try reflexivity.
Qed.

Lemma is_nan_spec (v : float) : Prim2SF v = S754_nan -> is_nan v = true.
Proof.
  intros H. unfold is_nan. rewrite eqb_spec, H. reflexivity.
Qed.

Lemma SFabs_nan (v : spec_float) : SFabs v = S754_nan -> v = S754_nan.
Proof. destruct v; simpl; intros H; try discriminate; reflexivity. Qed.

Lemma SFcompare_none (a b : spec_float) :
  SFcompare a b = None -> a = S754_nan \/ b = S754_nan.
Proof.
  destruct a as [sa|sa| |sa ma ea], b as [sb|sb| |sb mb eb]; simpl;
    intros H; try discriminate; auto;
    try (destruct sa; discriminate); try (destruct sb; discriminate).
Qed.

(** On floats a guard [abs(v) >= eps] that is false means [abs(v) < eps],
    unless [v] or [eps] is NaN. *)
Lemma binary64_guard_false (v eps : float) :
  a_ge binary64 (a_abs binary64 v) eps = false ->
  PrimFloat.ltb (PrimFloat.abs v) eps = true \/
  is_nan v = true \/ is_nan eps = true.
Proof.
  simpl. rewrite leb_spec, ltb_spec, abs_spec. unfold SFleb, SFltb.
  rewrite (SFcompare_antisym (Prim2SF eps) (SFabs (Prim2SF v))).
  destruct (SFcompare (Prim2SF eps) (SFabs (Prim2SF v))) as [[| |]|] eqn:E;
    simpl; intros H; try discriminate; auto.
  right. destruct (SFcompare_none _ _ E) as [Hn|Hn].
  - right. apply is_nan_spec. exact Hn.
  - left. apply is_nan_spec. apply SFabs_nan. exact Hn.
Qed.

Lemma binary64_sign_laws : sign_laws binary64.
Proof.
  split; simpl.
  - intros b. rewrite leb_spec, ltb_spec. unfold SFleb, SFltb.
    destruct (SFcompare (Prim2SF 0) (Prim2SF b)) as [[| |]|];
      intros H; try discriminate; reflexivity.
  - intros a. rewrite !ltb_spec. unfold SFltb.
    rewrite (SFcompare_antisym (Prim2SF 0) (Prim2SF a)).
    destruct (SFcompare (Prim2SF 0) (Prim2SF a)) as [[| |]|];
      simpl; intros H; try discriminate; reflexivity.
  - intros v eps. rewrite !leb_spec, ltb_spec, abs_spec.
    unfold SFleb, SFltb.
    rewrite (SFcompare_antisym (Prim2SF 0) (Prim2SF v)).
    destruct (SFcompare (Prim2SF eps) (SFabs (Prim2SF v))) as [c|] eqn:E;
      [|discriminate].
    intros _.
    destruct (SFcompare (Prim2SF 0) (Prim2SF v)) as [[| |]|] eqn:E0;
      simpl; intros H; try discriminate; try reflexivity.
    exfalso. destruct (SFcompare_none _ _ E0) as [Hn|Hn].
    + vm_compute in Hn. discriminate Hn.
    + rewrite Hn in E. simpl in E.
      destruct (Prim2SF eps); discriminate E.
Qed.

Lemma rational_sign_laws : sign_laws rational.
Proof.
  split; simpl.
  - intros b Hb. apply Qlt_bool_true in Hb. apply Qge_bool_true.
    apply Qlt_le_weak. exact Hb.
  - intros a Ha. apply Qlt_bool_true in Ha. apply Qlt_bool_false.
    apply Qlt_le_weak. exact Ha.
  - intros v eps _ Hv. apply Qge_bool_false in Hv. apply Qlt_bool_true.
    exact Hv.
Qed.

(** ** The Newton-Raphson loop *)

Section NewtonAny.

Context {R : Type} (A : arith R).
Variables (f df : callable R) (eps : R) (max_its : Z).

Local Abbreviation loop := (newton_while A f df eps max_its).

Lemma loop_f_raises fuel x count e :
  f x = inl e ->
  loop (S fuel) x count = (Raises e, [Call_f x]).
Proof.
  intros Hf. simpl. unfold call. rewrite Hf. reflexivity.
Qed.

Lemma loop_guard_false fuel x count v :
  f x = inr v -> a_ge A (a_abs A v) eps = false ->
  loop (S fuel) x count = (Returns x, [Call_f x; Loop_test false]).
Proof.
  intros Hf Hv. simpl. unfold call. rewrite Hf. simpl. rewrite Hv.
  reflexivity.
Qed.

Lemma loop_df_raises fuel x count v e :
  f x = inr v -> a_ge A (a_abs A v) eps = true -> df x = inl e ->
  loop (S fuel) x count = (Raises e, pass_trace x).
Proof.
  intros Hf Hv Hdf. simpl. unfold call. rewrite Hf. simpl. rewrite Hv.
  simpl. rewrite Hdf. reflexivity.
Qed.

Lemma loop_zero_division fuel x count v d :
  f x = inr v -> a_ge A (a_abs A v) eps = true -> df x = inr d ->
  a_is_zero A d = true ->
  loop (S fuel) x count = (Raises ZeroDivisionError, pass_trace x).
Proof.
  intros Hf Hv Hdf Hd. simpl. unfold call. rewrite Hf. simpl. rewrite Hv.
  simpl. rewrite Hdf. simpl. unfold py_div. rewrite Hd. reflexivity.
Qed.

Lemma loop_exceeds fuel x count v d :
  f x = inr v -> a_ge A (a_abs A v) eps = true -> df x = inr d ->
  a_is_zero A d = false -> (count + 1 > max_its)%Z ->
  loop (S fuel) x count = (Raises (ConvergenceError newton_msg), pass_trace x).
Proof.
  intros Hf Hv Hdf Hd Hc. simpl. unfold call. rewrite Hf. simpl. rewrite Hv.
  simpl. rewrite Hdf. simpl. unfold py_div. rewrite Hd. simpl.
  apply Z.gtb_gt in Hc. rewrite Hc. reflexivity.
Qed.

Lemma loop_continues fuel x count v d :
  f x = inr v -> a_ge A (a_abs A v) eps = true -> df x = inr d ->
  a_is_zero A d = false -> (count + 1 <= max_its)%Z ->
  loop (S fuel) x count =
    (fst (loop fuel (a_sub A x (a_quo A v d)) (count + 1)%Z),
     pass_trace x ++ snd (loop fuel (a_sub A x (a_quo A v d)) (count + 1)%Z)).
Proof.
  intros Hf Hv Hdf Hd Hc. simpl. unfold call. rewrite Hf. simpl. rewrite Hv.
  simpl. rewrite Hdf. simpl. unfold py_div. rewrite Hd. simpl.
  destruct (count + 1 >? max_its)%Z eqn:G; [apply Z.gtb_gt in G; lia|].
  destruct (newton_while A f df eps max_its fuel (a_sub A x (a_quo A v d))
              (count + 1)) as [o t]. reflexivity.
Qed.

Lemma update_some x v d :
  f x = inr v -> df x = inr d -> a_is_zero A d = false ->
  newton_update A f df x = Some (a_sub A x (a_quo A v d)).
Proof.
  intros Hf Hdf Hd. unfold newton_update. rewrite Hf, Hdf, Hd. reflexivity.
Qed.

Lemma update_inv x x' :
  newton_update A f df x = Some x' ->
  exists v d, f x = inr v /\ df x = inr d /\ a_is_zero A d = false /\
              x' = a_sub A x (a_quo A v d).
Proof.
  unfold newton_update. intros H.
  destruct (f x) as [e|v]; [discriminate|].
  destruct (df x) as [e|d]; [discriminate|].
  destruct (a_is_zero A d) eqn:E; [discriminate|].
  injection H as <-. exists v, d. auto.
Qed.

Lemma guard_evaluations_append (t t' : list (event R)) :
  guard_evaluations (t ++ t')
  = (guard_evaluations t + guard_evaluations t')%nat.
Proof.
  unfold guard_evaluations. rewrite filter_app, length_app. reflexivity.
Qed.

Ltac loop_cases fuel x count :=
  let e := fresh "e" in
  let v := fresh "v" in
  let d := fresh "d" in
  let Hf := fresh "Hf" in
  let Hdf := fresh "Hdf" in
  let Hv := fresh "Hv" in
  let Hd := fresh "Hd" in
  let Hc := fresh "Hc" in
  destruct (f x) as [e|v] eqn:Hf;
  [ rewrite (loop_f_raises fuel x count e Hf)
  | destruct (a_ge A (a_abs A v) eps) eqn:Hv;
    [ destruct (df x) as [e|d] eqn:Hdf;
      [ rewrite (loop_df_raises fuel x count v e Hf Hv Hdf)
      | destruct (a_is_zero A d) eqn:Hd;
        [ rewrite (loop_zero_division fuel x count v d Hf Hv Hdf Hd)
        | destruct (Z_gt_le_dec (count + 1) max_its) as [Hc|Hc];
          [ rewrite (loop_exceeds fuel x count v d Hf Hv Hdf Hd Hc)
          | rewrite (loop_continues fuel x count v d Hf Hv Hdf Hd Hc) ] ] ]
    | rewrite (loop_guard_false fuel x count v Hf Hv) ] ].

(** A value the loop returns is the first iterate at which the guard
    fails. *)
Lemma loop_returns fuel :
  forall x count y t,
    loop fuel x count = (Returns y, t) ->
    exists k, first_unguarded A f df eps k x y /\
              guard_evaluations t = S k /\
              (k = O \/ (count + Z.of_nat k <= max_its)%Z).
Proof.
  induction fuel as [|fuel IH]; intros x count y t; [discriminate|].
  loop_cases fuel x count; intros H; try discriminate.
  - destruct (loop fuel (a_sub A x (a_quo A v d)) (count + 1)%Z)
      as [o t'] eqn:E.
    cbn [fst snd] in H.
    pose proof (f_equal fst H) as Ho. pose proof (f_equal snd H) as Ht.
    cbn [fst snd] in Ho, Ht. subst o t. clear H.
    destruct (IH _ _ _ _ E) as (k & (Hk & Hy & Hbefore) & Hg & Hcount).
    exists (S k). split; [split; [|split]|split].
    + simpl. rewrite (update_some x v d Hf Hdf Hd). exact Hk.
    + exact Hy.
    + intros [|j] Hj.
      * exists x. split; [reflexivity|]. exists v. auto.
      * simpl. rewrite (update_some x v d Hf Hdf Hd). apply Hbefore. lia.
    + rewrite guard_evaluations_append, Hg. reflexivity.
    + right. destruct Hcount as [->|Hcount]; lia.
  - injection H as <- <-. exists O. split; [split; [|split]|split].
    + reflexivity.
    + exists v. auto.
    + intros j Hj. lia.
    + reflexivity.
    + left. reflexivity.
Qed.

(** Conversely, a first iterate at which the guard fails is returned when
    its index is within the budget. *)
Lemma loop_complete k :
  forall fuel x count y,
    first_unguarded A f df eps k x y ->
    (k = O \/ (count + Z.of_nat k <= max_its)%Z) ->
    (k < fuel)%nat ->
    exists t, loop fuel x count = (Returns y, t) /\
              guard_evaluations t = S k.
Proof.
  induction k as [|k IH]; intros fuel x count y (Hk & Hy & Hbefore) Hb Hfuel;
    (destruct fuel as [|fuel]; [lia|]).
  - simpl in Hk. injection Hk as ->. destruct Hy as (v & Hv & Hfalse).
    rewrite (loop_guard_false fuel y count v Hv Hfalse).
    eexists. split; reflexivity.
  - destruct (Hbefore O ltac:(lia)) as (x0 & E0 & (v & Hv & Htrue)).
    simpl in E0. injection E0 as <-.
    simpl in Hk.
    destruct (newton_update A f df x) as [x'|] eqn:U; [|discriminate].
    destruct (update_inv x x' U) as (v0 & d & Hf0 & Hdf & Hd & ->).
    assert (v0 = v) by congruence. subst v0.
    assert (Hc : (count + 1 <= max_its)%Z) by lia.
    rewrite (loop_continues fuel x count v d Hv Htrue Hdf Hd Hc).
    destruct (IH fuel (a_sub A x (a_quo A v d)) (count + 1)%Z y)
      as (t & Et & Hg).
    + split; [exact Hk|]. split; [exact Hy|].
      intros j Hj. specialize (Hbefore (S j) ltac:(lia)).
      simpl in Hbefore. rewrite U in Hbefore. exact Hbefore.
    + right. lia.
    + lia.
    + rewrite Et. cbn [fst snd]. eexists. split; [reflexivity|].
      rewrite guard_evaluations_append, Hg. reflexivity.
Qed.

Lemma loop_total fuel :
  forall x count,
    (Z.to_nat (max_its - count) < fuel)%nat ->
    fst (loop fuel x count) <> OutOfFuel.
Proof.
  induction fuel as [|fuel IH]; intros x count Hfuel; [lia|].
  loop_cases fuel x count; cbn [fst]; try discriminate.
  apply IH. lia.
Qed.

End NewtonAny.

(** ** The bisection loop *)

Section BisectionAny.

Context {R : Type} (A : arith R).
Variables (f : callable R) (eps : R) (max_its : Z).

Local Abbreviation body := (bisection_body A f max_its).
Local Abbreviation bloop := (bisection_while A f eps max_its).
Local Abbreviation step := (bisection_step A f eps max_its).
Local Abbreviation reaches := (bisection_reaches A f eps max_its).

(** The body completes, replacing one end by the midpoint, or raises: what
    [f] raised at the new midpoint, or the convergence failure. *)
Lemma body_outcome st :
  snd (body st) <> [] /\
  match fst (body st) with
  | Returns st' =>
      replaced_by_midpoint st st' /\
      (a_ge A (st_f_test st) (a_zero A) = true ->
         st_x_0 st' = st_x_temp st /\ st_x_1 st' = st_x_1 st) /\
      (a_ge A (st_f_test st) (a_zero A) = false ->
         st_x_1 st' = st_x_temp st /\ st_x_0 st' = st_x_0 st) /\
      midpoint_tested A f st' /\
      st_count st' = (st_count st + 1)%Z /\
      (st_count st' <= max_its)%Z
  | Raises e =>
      (exists y, f y = inl e) \/
      (e = ConvergenceError bisection_msg /\ (st_count st + 1 > max_its)%Z)
  | OutOfFuel => False
  end.
Proof.
  unfold bisection_body, bind, call.
  set (x_0 := if a_ge A (st_f_test st) (a_zero A)
              then st_x_temp st else st_x_0 st).
  set (x_1 := if a_ge A (st_f_test st) (a_zero A)
              then st_x_1 st else st_x_temp st).
  destruct (f (a_quo A (a_add A x_0 x_1) (a_two A))) as [e|v] eqn:Hf.
  - simpl. split; [discriminate|]. left. eauto.
  - destruct (st_count st + 1 >? max_its)%Z eqn:Hc; simpl.
    + split; [discriminate|]. right. split; [reflexivity|].
      apply Z.gtb_gt. exact Hc.
    + split; [discriminate|].
      assert (Hle : (st_count st + 1 <= max_its)%Z).
      { destruct (Z_gt_le_dec (st_count st + 1) max_its) as [G|G];
          [apply Z.gtb_gt in G; congruence|exact G]. }
      unfold replaced_by_midpoint, midpoint_tested. simpl.
      subst x_0 x_1.
      destruct (a_ge A (st_f_test st) (a_zero A)) eqn:Ht;
        repeat split; auto; intros; discriminate.
Qed.

Lemma bloop_exit fuel st :
  a_ge A (a_abs A (st_f_test st)) eps = false ->
  bloop (S fuel) st = (Returns (st_x_temp st), [Loop_test false]).
Proof. intros Hg. simpl. rewrite Hg. reflexivity. Qed.

Lemma bloop_step fuel st st' :
  step st st' ->
  bloop (S fuel) st =
    (fst (bloop fuel st'),
     Loop_test true :: snd (body st) ++ snd (bloop fuel st')).
Proof.
  intros (Hg & Hbody). simpl. rewrite Hg. unfold emit, bind at 1.
  destruct (body st) as [o t] eqn:E. simpl in Hbody. subst o.
  unfold bind. destruct (bloop fuel st') as [o' t']. reflexivity.
Qed.

Lemma bloop_raises fuel st e :
  a_ge A (a_abs A (st_f_test st)) eps = true ->
  fst (body st) = Raises e ->
  bloop (S fuel) st = (Raises e, Loop_test true :: snd (body st)).
Proof.
  intros Hg Hbody. simpl. rewrite Hg.
  unfold emit, bind. destruct (body st) as [o t]. simpl in Hbody. subst o.
  reflexivity.
Qed.

(** What the loop yields from a state it has reached. *)
Lemma bloop_outcome st0 fuel :
  forall st,
    reaches st0 st -> midpoint_tested A f st ->
    (Z.to_nat (max_its - st_count st) < fuel)%nat ->
    match fst (bloop fuel st) with
    | Returns x =>
        guard_fails A f eps x /\
        exists st',
          reaches st0 st' /\ midpoint_tested A f st' /\ x = st_x_temp st'
    | Raises e => (exists y, f y = inl e) \/ e = ConvergenceError bisection_msg
    | OutOfFuel => False
    end.
Proof.
  induction fuel as [|fuel IH]; intros st Hreach Hmt Hfuel; [lia|].
  destruct (a_ge A (a_abs A (st_f_test st)) eps) eqn:Hg.
  - pose proof (body_outcome st) as (_ & Hout).
    destruct (fst (body st)) as [st'|e|] eqn:Hbody; [| |contradiction].
    + assert (Hstep : step st st') by (split; assumption).
      rewrite (bloop_step fuel st st' Hstep). cbn [fst].
      destruct Hout as (_ & _ & _ & Hmt' & Hcount & Hle).
      apply IH.
      * apply (rtn1_trans _ _ _ st st' Hstep Hreach).
      * exact Hmt'.
      * lia.
    + rewrite (bloop_raises fuel st e Hg Hbody). cbn [fst].
      destruct Hout as [Hy|[He _]]; auto.
  - rewrite (bloop_exit fuel st Hg). cbn [fst].
    split.
    + exists (st_f_test st). destruct Hmt as (_ & Htest). auto.
    + exists st. auto.
Qed.

(** A completed iteration keeps the sign convention. *)
Lemma step_invariant st st' :
  sign_laws A -> oriented A f st -> midpoint_tested A f st -> step st st' ->
  oriented A f st' /\ midpoint_tested A f st' /\ replaced_by_midpoint st st'.
Proof.
  intros Laws ((a & Ha & Hapos) & (b & Hb & Hbneg)) (Hmid & Htest)
    (Hg & Hbody).
  pose proof (body_outcome st) as (_ & Hout).
  rewrite Hbody in Hout.
  destruct Hout as (Hrep & Hpos & Hneg & Hmt & _).
  split; [|split; assumption].
  destruct (a_ge A (st_f_test st) (a_zero A)) eqn:Hs.
  - destruct (Hpos eq_refl) as (E0 & E1). split.
    + exists (st_f_test st). rewrite E0. auto.
    + exists b. rewrite E1. auto.
  - destruct (Hneg eq_refl) as (E1 & E0). split.
    + exists a. rewrite E0. auto.
    + exists (st_f_test st). rewrite E1. split; [exact Htest|].
      apply (guarded_negative A Laws _ eps Hg Hs).
Qed.

Lemma reaches_invariant st0 st :
  sign_laws A -> oriented A f st0 -> midpoint_tested A f st0 ->
  reaches st0 st ->
  oriented A f st /\ midpoint_tested A f st.
Proof.
  intros Laws Hor Hmt Hreach.
  induction Hreach as [|st st' Hstep Hreach IH]; [auto|].
  destruct IH as (Hor' & Hmt').
  destruct (step_invariant st st' Laws Hor' Hmt' Hstep) as (? & ? & _).
  auto.
Qed.

End BisectionAny.

(** The state on entry to the loop. *)
Lemma init_shape {R : Type} (A : arith R) (f : callable R) (x_0 x_1 a : R) :
  (exists e y, f y = inl e /\
     bisection_init A f x_0 x_1 a = (Raises e, [Call_f y])) \/
  (exists st,
     bisection_init A f x_0 x_1 a = (Returns st, [Call_f (st_x_temp st)]) /\
     midpoint_tested A f st /\ st_count st = 0%Z /\
     ((a_lt A a (a_zero A) = true /\ st_x_0 st = x_1 /\ st_x_1 st = x_0) \/
      (a_lt A a (a_zero A) = false /\ st_x_0 st = x_0 /\ st_x_1 st = x_1))).
Proof.
  unfold bisection_init.
  destruct (a_lt A a (a_zero A)) eqn:Hs; unfold bind, call;
    match goal with |- context [f ?y] => destruct (f y) as [e|v] eqn:E end;
    simpl;
    [ left; exists e; eexists; split; [exact E|reflexivity]
    | right; eexists (mk_state _ _ _ _ _); split; [reflexivity|];
      split; [split; [reflexivity|exact E]|]; split; [reflexivity|]; auto
    | left; exists e; eexists; split; [exact E|reflexivity]
    | right; eexists (mk_state _ _ _ _ _); split; [reflexivity|];
      split; [split; [reflexivity|exact E]|]; split; [reflexivity|]; auto ].
Qed.

(** The orientation swap establishes the sign convention. *)
Lemma init_oriented {R : Type} (A : arith R) (f : callable R)
  (x_0 x_1 a b : R) (st : loop_state R) :
  sign_laws A ->
  f x_0 = inr a -> f x_1 = inr b -> opposite_sign A a b ->
  fst (bisection_init A f x_0 x_1 a) = Returns st ->
  oriented A f st /\ midpoint_tested A f st.
Proof.
  intros Laws Ha Hb Hsign Hinit.
  destruct (init_shape A f x_0 x_1 a)
    as [(e & y & _ & E)|(st' & E & Hmt & _ & Hends)];
    rewrite E in Hinit; cbn [fst] in Hinit; [discriminate|].
  injection Hinit as <-. split; [|exact Hmt].
  unfold oriented.
  destruct Hends as [(Hs & E0 & E1)|(Hs & E0 & E1)]; rewrite E0, E1.
  - destruct Hsign as [(_ & Hbpos)|(_ & Hapos)].
    + split; [exists b|exists a]; split; auto.
      apply (positive_ge_zero A Laws). exact Hbpos.
    + rewrite (positive_not_negative A Laws a Hapos) in Hs. discriminate.
  - destruct Hsign as [(Haneg & _)|(Hbneg & Hapos)].
    + rewrite Haneg in Hs. discriminate.
    + split; [exists a|exists b]; split; auto.
      apply (positive_ge_zero A Laws). exact Hapos.
Qed.

(** [bisection], by what [f] yields at the two ends and by the bracket
    test. *)
Lemma bisection_unfold_any {R : Type} (A : arith R) (f : callable R)
  (x_0 x_1 eps : R) (max_its : Z) :
  bisection A f x_0 x_1 eps max_its
  = match f x_0 with
    | inl e => (Raises e, [Call_f x_0])
    | inr a =>
        match f x_1 with
        | inl e => (Raises e, [Call_f x_0; Call_f x_1])
        | inr b =>
            if a_ge A (a_mul A a b) (a_zero A)
            then (Raises (ValueError bracket_msg), [Call_f x_0; Call_f x_1])
            else
              (fst (st <- bisection_init A f x_0 x_1 a ;;
                    bisection_while A f eps max_its (S (Z.to_nat max_its)) st),
               [Call_f x_0; Call_f x_1] ++
               snd (st <- bisection_init A f x_0 x_1 a ;;
                    bisection_while A f eps max_its (S (Z.to_nat max_its)) st))
        end
    end.
Proof.
  unfold bisection. unfold bind at 1, call at 1.
  destruct (f x_0) as [e|a]; [reflexivity|].
  unfold bind at 1, call at 1.
  destruct (f x_1) as [e|b]; [reflexivity|].
  destruct (a_ge A (a_mul A a b) (a_zero A)); [reflexivity|].
  destruct (st <- bisection_init A f x_0 x_1 a ;;
            bisection_while A f eps max_its (S (Z.to_nat max_its)) st)
    as [o t].
  reflexivity.
Qed.

(** The loop phase of [bisection], once the bracket test has passed. *)
Lemma bisection_loop_any {R : Type} (A : arith R) (f : callable R)
  (x_0 x_1 eps : R) (max_its : Z) (a : R) :
  match fst (st <- bisection_init A f x_0 x_1 a ;;
             bisection_while A f eps max_its (S (Z.to_nat max_its)) st) with
  | Returns x =>
      guard_fails A f eps x /\
      exists st0 st,
        fst (bisection_init A f x_0 x_1 a) = Returns st0 /\
        bisection_reaches A f eps max_its st0 st /\
        x = a_quo A (a_add A (st_x_0 st) (st_x_1 st)) (a_two A)
  | Raises e => (exists y, f y = inl e) \/ e = ConvergenceError bisection_msg
  | OutOfFuel => False
  end.
Proof.
  destruct (init_shape A f x_0 x_1 a)
    as [(e & y & Hy & E)|(st0 & E & Hmt & Hc & _)]; rewrite E.
  - cbn [bind fst]. left. eauto.
  - unfold bind.
    pose proof (bloop_outcome A f eps max_its st0 (S (Z.to_nat max_its)) st0
                  (rtn1_refl _ _ _) Hmt) as Hout.
    rewrite Hc, Z.sub_0_r in Hout. specialize (Hout ltac:(lia)).
    destruct (bisection_while A f eps max_its (S (Z.to_nat max_its)) st0)
      as [o t]. cbn [fst] in *.
    destruct o as [x|e|]; [|exact Hout|exact Hout].
    destruct Hout as (Hg & st & Hreach & (Hmid & _) & Hx).
    split; [exact Hg|]. exists st0, st.
    split; [reflexivity|]. split; [exact Hreach|].
    rewrite Hx. exact Hmid.
Qed.

Lemma bind_ret_any {R B : Type} (m : M R B) : (x <- m ;; ret x) = m.
Proof.
  destruct m as [[a|e|] t]; unfold bind, ret; try reflexivity.
  rewrite app_nil_r. reflexivity.
Qed.

(** ** Claims *)

(** C5, amended.  Whenever [newton_raphson] returns, its result is the
    first element of the computed Newton iterate sequence
    [x_{k+1} = x_k - f(x_k)/df(x_k)] from [x_0] at which the loop guard
    [abs(f(x)) >= eps] is false: the guard fails there and holds at every
    earlier iterate.  On floats a guard that fails means
    [abs(f(x)) < eps] unless [f(x)] or [eps] is NaN. *)
Theorem newton_raphson_returns_first_unguarded :
  (forall (R : Type) (A : arith R) (f df : callable R) (x_0 eps : R)
          (max_its : Z) (x : R) (t : list (event R)),
     newton_raphson A f df x_0 eps max_its = (Returns x, t) ->
     exists k,
       newton_iterate A f df k x_0 = Some x /\
       guard_fails A f eps x /\
       (forall j, (j < k)%nat ->
          exists xj, newton_iterate A f df j x_0 = Some xj /\
                     guard_holds A f eps xj) /\
       guard_evaluations t = S k) /\
  (forall v eps : float,
     a_ge binary64 (a_abs binary64 v) eps = false ->
     PrimFloat.ltb (PrimFloat.abs v) eps = true \/
     is_nan v = true \/ is_nan eps = true).
Proof.
  split.
  - intros R A f df x_0 eps max_its x t H. unfold newton_raphson in H.
    destruct (loop_returns A f df eps max_its _ _ _ _ _ H)
      as (k & (Hk & Hx & Hbefore) & Hg & _).
    exists k. auto.
  - exact binary64_guard_false.
Qed.

Lemma newton_raphson_returns_first_unguarded_witness :
  exists k,
    newton_iterate binary64 (fun x => inr (x - 1)%float) (fun _ => inr 1%float)
      k 3%float = Some 1%float /\
    guard_fails binary64 (fun x => inr (x - 1)%float) 0.5%float 1%float /\
    (forall j, (j < k)%nat ->
       exists xj,
         newton_iterate binary64 (fun x => inr (x - 1)%float)
           (fun _ => inr 1%float) j 3%float = Some xj /\
         guard_holds binary64 (fun x => inr (x - 1)%float) 0.5%float xj) /\
    guard_evaluations
      [Call_f 3%float; Loop_test true; Call_f 3%float; Call_df 3%float;
       Call_f 1%float; Loop_test false] = S k.
Proof.
  apply (proj1 newton_raphson_returns_first_unguarded float binary64
           (fun x => inr (x - 1)%float) (fun _ => inr 1%float)
           3%float 0.5%float 20%Z).
  vm_compute. reflexivity.
Defined.

(** C5, as stated, fails on floats: for [f(x) = x^2 + 1] with its
    derivative [2x] from [x_0 = 1e-200] the iterates overflow to NaN, the
    guard is false on NaN, and NaN is returned although [abs(f(nan)) < eps]
    does not hold. *)
Lemma newton_returns_nan_counterexample : ~ newton_result_meets_tolerance.
Proof.
  intros H.
  assert (E : newton_raphson binary64
                (fun x => inr (x * x + 1)%float) (fun x => inr (2 * x)%float)
                1e-200%float 1e-5%float 20
              = (Returns nan,
                 snd (newton_raphson binary64
                        (fun x => inr (x * x + 1)%float)
                        (fun x => inr (2 * x)%float)
                        1e-200%float 1e-5%float 20)))
    by (vm_compute; reflexivity).
  destruct (H _ _ _ _ _ _ _ E) as (v & Hv & Hlt).
  injection Hv as <-. vm_compute in Hlt. discriminate Hlt.
Qed.

(** [newton_raphson] returns [y] exactly when [y] is the first computed
    Newton iterate at which the guard [abs(f(y)) >= eps] is false and its
    index is [0] or at most [max_its]. *)
Theorem newton_raphson_returns_exactly {R : Type} (A : arith R)
  (f df : callable R) (x_0 eps : R) (max_its : Z) (y : R) :
  (exists t, newton_raphson A f df x_0 eps max_its = (Returns y, t)) <->
  (exists k, first_unguarded A f df eps k x_0 y /\
             (k = O \/ (Z.of_nat k <= max_its)%Z)).
Proof.
  unfold newton_raphson. split.
  - intros (t & H).
    destruct (loop_returns A f df eps max_its _ _ _ _ _ H)
      as (k & Hfc & _ & Hb).
    exists k. split; [exact Hfc|]. destruct Hb as [->|Hb]; [left|right]; lia.
  - intros (k & Hfc & Hb).
    destruct (loop_complete A f df eps max_its k
                (S (Z.to_nat max_its)) x_0 0%Z y Hfc) as (t & Ht & _).
    + destruct Hb as [->|Hb]; [left; reflexivity|right; lia].
    + destruct Hb as [->|Hb]; lia.
    + exists t. exact Ht.
Qed.



(** What floats do to a sign-changing bracket.  The product of two values
    of opposite sign can underflow to [-0.0], which passes [>= 0]: the
    bracket is rejected.  The sum of two large ends can overflow: the
    midpoint is then infinite, outside the bracket, and it is returned when
    [f] there is NaN. *)
Example bisection_float_underflow :
  PrimFloat.ltb (1e-200 * -1) 0 = true /\
  PrimFloat.ltb 0 (1e-200 * 1) = true /\
  bisection binary64 (fun x => inr (1e-200 * x)%float) (-1)%float 1%float
    1e-5%float 20
  = (Raises (ValueError bracket_msg), [Call_f (-1)%float; Call_f 1%float]).
Proof. repeat split; vm_compute; reflexivity. Qed.

Example bisection_float_overflow :
  PrimFloat.ltb 0 ((1.75e308 - 1.7e308) / 1.7e308) = true /\
  PrimFloat.ltb ((1.75e308 - 1.79e308) / 1.79e308) 0 = true /\
  fst (bisection binary64 (fun x => inr ((1.75e308 - x) / x)%float)
         1.7e308%float 1.79e308%float 1e-5%float 20)
  = Returns infinity /\
  PrimFloat.leb infinity (float_max 1.7e308 1.79e308) = false.
Proof. repeat split; vm_compute; reflexivity. Qed.

(** The run that refutes C2 as stated is the same on floats. *)
Example bisection_float_budget :
  fst (bisection binary64 (fun x => inr x) (-1)%float 3%float 1e-5%float 0)
  = Raises (ConvergenceError bisection_msg).
Proof. vm_compute. reflexivity. Qed.

(** C9, amended.  On a bracket whose end values are of strictly opposite
    sign, after the orientation swap and in every state the loop reaches,
    [f(x_0) >= 0] and [f(x_1) < 0] hold for the current ends; and every
    iteration keeps one end and replaces the other by the current midpoint
    [(x_0 + x_1) / 2] as computed.  This holds for every arithmetic whose
    order satisfies [sign_laws], as binary64 and the rationals do. *)
Theorem bisection_sign_invariant {R : Type} (A : arith R) (f : callable R)
  (x_0 x_1 eps : R) (max_its : Z) (a b : R) (st0 st : loop_state R) :
  sign_laws A ->
  f x_0 = inr a -> f x_1 = inr b -> opposite_sign A a b ->
  fst (bisection_init A f x_0 x_1 a) = Returns st0 ->
  bisection_reaches A f eps max_its st0 st ->
  oriented A f st /\
  st_x_temp st = a_quo A (a_add A (st_x_0 st) (st_x_1 st)) (a_two A) /\
  (forall st', bisection_step A f eps max_its st st' ->
     replaced_by_midpoint st st').
Proof.
  intros Laws Ha Hb Hsign Hinit Hreach.
  destruct (init_oriented A f x_0 x_1 a b st0 Laws Ha Hb Hsign Hinit)
    as (Hor & Hmt).
  destruct (reaches_invariant A f eps max_its st0 st Laws Hor Hmt Hreach)
    as (Hor' & Hmt').
  split; [exact Hor'|]. split; [apply Hmt'|].
  intros st' Hstep.
  apply (step_invariant A f eps max_its st st' Laws Hor' Hmt' Hstep).
Qed.

Lemma bisection_sign_invariant_witness :
  oriented binary64 (fun x => inr x)
    (mk_state 1%float (-1)%float 0%float 0%float 1) /\
  st_x_temp (mk_state 1%float (-1)%float 0%float 0%float 1)
  = a_quo binary64
      (a_add binary64
         (st_x_0 (mk_state 1%float (-1)%float 0%float 0%float 1))
         (st_x_1 (mk_state 1%float (-1)%float 0%float 0%float 1)))
      (a_two binary64) /\
  (forall st',
     bisection_step binary64 (fun x => inr x) 0.5%float 20
       (mk_state 1%float (-1)%float 0%float 0%float 1) st' ->
     replaced_by_midpoint
       (mk_state 1%float (-1)%float 0%float 0%float 1) st').
Proof.
  apply (bisection_sign_invariant binary64 (fun x => inr x)
           (-1)%float 3%float 0.5%float 20 (-1)%float 3%float
           (mk_state 3%float (-1)%float 1%float 1%float 0)).
  - exact binary64_sign_laws.
  - reflexivity.
  - reflexivity.
  - left. split; vm_compute; reflexivity.
  - vm_compute. reflexivity.
  - apply (rtn1_trans _ _ _ (mk_state 3%float (-1)%float 1%float 1%float 0)).
    + split; vm_compute; reflexivity.
    + apply rtn1_refl.
Defined.

(** C9, as stated, fails on floats: on the bracket [[1.7e308, 1.79e308]] of
    [f(x) = 1.75e308 - x] the sum of the ends overflows, the midpoint is
    infinite, and the iteration replaces [x_1] by it: the new bracket is
    not contained in the previous one. *)
Lemma bisection_overflow_counterexample : ~ bisection_brackets_nested.
Proof.
  intros H.
  assert (Hn : float_nested
                 (mk_state 1.7e308%float 1.79e308%float infinity
                    neg_infinity 0)
                 (mk_state 1.7e308%float infinity infinity neg_infinity 1)).
  { apply (H (fun x => inr (1.75e308 - x)%float) 1.7e308%float
             1.79e308%float 1e-5%float 20%Z
             (1.75e308 - 1.7e308)%float (1.75e308 - 1.79e308)%float
             (mk_state 1.7e308%float 1.79e308%float infinity neg_infinity 0)).
    - reflexivity.
    - reflexivity.
    - right. split; vm_compute; reflexivity.
    - vm_compute. reflexivity.
    - apply rtn1_refl.
    - split; vm_compute; reflexivity. }
  destruct Hn as (_ & Hmax). vm_compute in Hmax. discriminate Hmax.
Qed.

(** Whatever [solve] returns, on the Newton-Raphson path or on the
    bisection path, is a point at which the guard [abs(f(x)) >= eps] is
    false. *)
Theorem solve_returns_unguarded {R : Type} (A : arith R) (f df : callable R)
  (x_0 x_1 eps : R) (max_its_n max_its_b : Z) (x : R) :
  fst (solve A f df x_0 x_1 eps max_its_n max_its_b) = Returns x ->
  guard_fails A f eps x.
Proof.
  unfold solve. rewrite !bind_ret_any. unfold try_except_ConvergenceError.
  destruct (newton_raphson A f df x_0 eps max_its_n) as [[y|e|] t] eqn:En.
  - cbn [fst]. intros H. injection H as <-.
    unfold newton_raphson in En.
    destruct (loop_returns A f df eps max_its_n _ _ _ _ _ En)
      as (k & (_ & Hg & _) & _).
    exact Hg.
  - destruct e as [msg| | |]; cbn [fst]; try discriminate.
    rewrite (bisection_unfold_any A f x_0 x_1 eps max_its_b).
    destruct (f x_0) as [e|a]; [discriminate|].
    destruct (f x_1) as [e|b]; [discriminate|].
    destruct (a_ge A (a_mul A a b) (a_zero A)); [discriminate|].
    cbn [fst]. intros H.
    pose proof (bisection_loop_any A f x_0 x_1 eps max_its_b a) as Hout.
    rewrite H in Hout. apply Hout.
  - discriminate.
Qed.

Lemma solve_returns_unguarded_witness :
  guard_fails binary64 (fun x => inr x) 0.5%float 0%float.
Proof.
  apply (solve_returns_unguarded binary64 (fun x => inr x)
           (fun _ => inr 4%float) 1%float (-1)%float 0.5%float 0 3).
  vm_compute. reflexivity.
Defined.

(** The examples of the specification, on floats: [x^2 - 2] from [1.0] is
    solved on the Newton-Raphson path near [1.41421]; [x^3 - 2x + 2] from
    [0], where Newton-Raphson cycles, is solved by the fallback. *)
Example solve_float_runs :
  fst (solve binary64 (fun x => inr (x * x - 2)%float)
         (fun x => inr (2 * x)%float) 1%float 2%float 1e-5%float 20 20)
  = Returns 1.4142156862745099%float /\
  fst (solve binary64 (fun x => inr (x * x * x - 2 * x + 2)%float)
         (fun x => inr (3 * x * x - 2)%float) 0%float (-3)%float
         1e-5%float 20 20)
  = Returns (-1.7692923545837402)%float.
Proof. split; vm_compute; reflexivity. Qed.

End ScalarFacts.


(** * The rational instance is the model of the first part *)

Lemma rational_newton_while f df eps max_its fuel :
  forall x count,
    fst (Scalar.newton_while rational f df eps max_its fuel x count)
    = fst (newton_while f df eps max_its fuel x count).
Proof.
  induction fuel as [|fuel IH]; intros x count; [reflexivity|].
  destruct (f x) as [e|v] eqn:Hf.
  { rewrite (ScalarFacts.loop_f_raises rational f df eps max_its fuel x count
               e Hf).
    rewrite (newton_while_f_raises f df eps max_its fuel x count e Hf).
    reflexivity. }
  destruct (Qge_bool (Qabs v) eps) eqn:Hv.
  2:{ rewrite (ScalarFacts.loop_guard_false rational f df eps max_its fuel x
                 count v Hf Hv).
      apply Qge_bool_false in Hv.
      rewrite (newton_while_converged f df eps max_its fuel x count v Hf Hv).
      reflexivity. }
  destruct (df x) as [e|d] eqn:Hdf.
  { rewrite (ScalarFacts.loop_df_raises rational f df eps max_its fuel x count
               v e Hf Hv Hdf).
    apply Qge_bool_true in Hv.
    rewrite (newton_while_df_raises f df eps max_its fuel x count v e
               Hf Hv Hdf).
    reflexivity. }
  destruct (Qeq_bool d 0) eqn:Hd.
  { rewrite (ScalarFacts.loop_zero_division rational f df eps max_its fuel x
               count v d Hf Hv Hdf Hd).
    apply Qge_bool_true in Hv. apply Qeq_bool_iff in Hd.
    rewrite (newton_while_zero_division f df eps max_its fuel x count v d
               Hf Hv Hdf Hd).
    reflexivity. }
  assert (Hd' : ~ d == 0).
  { intros Hz. apply Qeq_bool_iff in Hz. congruence. }
  destruct (Z_gt_le_dec (count + 1) max_its) as [Hc|Hc].
  - rewrite (ScalarFacts.loop_exceeds rational f df eps max_its fuel x count
               v d Hf Hv Hdf Hd Hc).
    apply Qge_bool_true in Hv.
    rewrite (newton_while_exceeds f df eps max_its fuel x count v d
               Hf Hv Hdf Hd' Hc).
    reflexivity.
  - rewrite (ScalarFacts.loop_continues rational f df eps max_its fuel x count
               v d Hf Hv Hdf Hd Hc).
    apply Qge_bool_true in Hv.
    rewrite (newton_while_continues f df eps max_its fuel x count v d
               Hf Hv Hdf Hd' Hc).
    cbn [fst]. apply IH.
Qed.

Lemma rational_bisection_body f max_its st :
  outcome_map plain_state (fst (Scalar.bisection_body rational f max_its st))
  = fst (bisection_body f max_its (plain_state st)).
Proof.
  unfold Scalar.bisection_body, bisection_body, Scalar.bind, bind,
    Scalar.call, call. simpl.
  destruct (Qge_bool (Scalar.st_f_test st) 0);
    match goal with |- context [f ?y] => destruct (f y) as [e|v] end;
    try reflexivity;
    destruct (Scalar.st_count st + 1 >? max_its)%Z; reflexivity.
Qed.

Lemma rational_bisection_while f eps max_its fuel :
  forall st,
    fst (Scalar.bisection_while rational f eps max_its fuel st)
    = fst (bisection_while f eps max_its fuel (plain_state st)).
Proof.
  induction fuel as [|fuel IH]; intros st; [reflexivity|].
  pose proof (rational_bisection_body f max_its st) as Hb.
  simpl. change (st_f_test (plain_state st)) with (Scalar.st_f_test st).
  destruct (Qge_bool (Qabs (Scalar.st_f_test st)) eps); [|reflexivity].
  unfold Scalar.emit, emit, Scalar.bind, bind.
  destruct (Scalar.bisection_body rational f max_its st) as [[st'|e|] t];
    destruct (bisection_body f max_its (plain_state st)) as [[st2|e2|] t2];
    cbn [fst outcome_map] in Hb; try discriminate Hb.
  - injection Hb as <-. specialize (IH st').
    destruct (Scalar.bisection_while rational f eps max_its fuel st').
    destruct (bisection_while f eps max_its fuel (plain_state st')).
    cbn [fst] in *. exact IH.
  - injection Hb as <-. reflexivity.
  - reflexivity.
Qed.

Lemma rational_bisection_init f x_0 x_1 a :
  outcome_map plain_state (fst (Scalar.bisection_init rational f x_0 x_1 a))
  = fst (bisection_init f x_0 x_1 a).
Proof.
  unfold Scalar.bisection_init, bisection_init, Scalar.bind, bind,
    Scalar.call, call. simpl.
  destruct (Qlt_bool a 0);
    match goal with |- context [f ?y] => destruct (f y) as [e|v] end;
    reflexivity.
Qed.

(** On exact rationals the parametric solvers are the solvers of the first
    part: the outcomes agree. *)
Lemma rational_instance f df x_0 x_1 eps max_its_n max_its_b :
  fst (Scalar.newton_raphson rational f df x_0 eps max_its_n)
  = fst (newton_raphson f df x_0 eps max_its_n) /\
  fst (Scalar.bisection rational f x_0 x_1 eps max_its_b)
  = fst (bisection f x_0 x_1 eps max_its_b) /\
  fst (Scalar.solve rational f df x_0 x_1 eps max_its_n max_its_b)
  = fst (solve f df x_0 x_1 eps max_its_n max_its_b).
Proof.
  assert (Hn : fst (Scalar.newton_raphson rational f df x_0 eps max_its_n)
               = fst (newton_raphson f df x_0 eps max_its_n))
    by apply rational_newton_while.
  assert (Hb : fst (Scalar.bisection rational f x_0 x_1 eps max_its_b)
               = fst (bisection f x_0 x_1 eps max_its_b)).
  { rewrite ScalarFacts.bisection_unfold_any, bisection_unfold.
    destruct (f x_0) as [e|a]; [reflexivity|].
    destruct (f x_1) as [e|b]; [reflexivity|].
    change (Scalar.a_ge rational (Scalar.a_mul rational a b)
              (Scalar.a_zero rational)) with (Qge_bool (a * b) 0).
    destruct (Qge_bool (a * b) 0); [reflexivity|]. cbn [fst].
    pose proof (rational_bisection_init f x_0 x_1 a) as Hi.
    unfold Scalar.bind, bind.
    destruct (Scalar.bisection_init rational f x_0 x_1 a) as [[st|e|] t];
      destruct (bisection_init f x_0 x_1 a) as [[st2|e2|] t2];
      cbn [fst outcome_map] in Hi; try discriminate Hi.
    - injection Hi as <-.
      pose proof (rational_bisection_while f eps max_its_b
                    (S (Z.to_nat max_its_b)) st) as Hw.
      destruct (Scalar.bisection_while rational f eps max_its_b
                  (S (Z.to_nat max_its_b)) st).
      destruct (bisection_while f eps max_its_b (S (Z.to_nat max_its_b))
                  (plain_state st)).
      exact Hw.
    - injection Hi as <-. reflexivity.
    - reflexivity. }
  split; [exact Hn|]. split; [exact Hb|].
  unfold Scalar.solve. rewrite !ScalarFacts.bind_ret_any, solve_unfold.
  unfold Scalar.try_except_ConvergenceError, try_except_ConvergenceError.
  destruct (Scalar.newton_raphson rational f df x_0 eps max_its_n)
    as [[y|e|] t];
    destruct (newton_raphson f df x_0 eps max_its_n) as [[y2|e2|] t2];
    cbn [fst] in Hn; try discriminate Hn; try (injection Hn as <-).
  - reflexivity.
  - destruct e as [msg| | |]; try reflexivity.
    destruct (Scalar.bisection rational f x_0 x_1 eps max_its_b).
    destruct (bisection f x_0 x_1 eps max_its_b). exact Hb.
  - reflexivity.
Qed.
